(** * Minesweeper knowledge base: a shallow embedding of minesweeper.py

    The Python classes [Minesweeper], [Sentence] and [MinesweeperAI] are
    embedded as records with explicit state passing.  Python integers are
    [Z], Python sets of cells are [gset (Z * Z)], the list
    [self.knowledge] is a [list] of sentence values.  A method that
    mutates [self] becomes a function returning the new object. *)

From Stdlib Require Import ZArith Lia Ascii.
From stdpp Require Import base decidable list gmap fin_sets strings.

#[local] Set Warnings "-clear-no-such-hyp".

Abbreviation cell := (Z * Z)%type.

(** [range(n)] and [range(a - 1, a + 2)] *)
Definition range (n : Z) : list Z := Z.of_nat <$> seq 0 (Z.to_nat n).
Definition range3 (a : Z) : list Z := [a - 1; a; a + 1]%Z.

(** The nested loops [for i in range(c0 - 1, c0 + 2): for j in range(c1 - 1, c1 + 2)] *)
Definition around (c : cell) : list cell :=
  i ← range3 c.1; j ← range3 c.2; [(i, j)].

(** [0 <= i < height and 0 <= j < width] *)
Definition in_bounds (height width : Z) (c : cell) : bool :=
  ((0 <=? c.1) && (c.1 <? height) && (0 <=? c.2) && (c.2 <? width))%Z.

(** ** class Minesweeper *)
Module Minesweeper.

(** The board is the matrix of booleans [self.board]; [__init__] sets
    [self.board[i][j] = True] exactly when it adds [(i, j)] to
    [self.mines], so the board is represented by that set. *)
Record t := Game { height : Z; width : Z; mines : gset cell }.

(** [is_mine] reads [self.board[i][j]], for a cell of the board. *)
Definition is_mine (g : t) (c : cell) : bool := bool_decide (c ∈ mines g).

(** Body of the loops of [nearby_mines] (lines 69-76) *)
Definition nearby_step (g : t) (c : cell) (count : Z) (ij : cell) : Z :=
  if bool_decide (ij = c) then count
  else if in_bounds (height g) (width g) ij
       then (if is_mine g ij then count + 1 else count)%Z
       else count.

Definition nearby_mines (g : t) (c : cell) : Z :=
  foldl (nearby_step g c) 0%Z (around c).

End Minesweeper.

(** ** class Sentence *)
Module Sentence.

Record t := Sentence {
  cells : gset cell;
  count : Z;
  known_mine_set : gset cell;
  known_safe_set : gset cell }.

(** [__init__] *)
Definition new (cells : gset cell) (count : Z) : t := Sentence cells count ∅ ∅.

(** [__eq__]: only the cells and the count are compared *)
Definition eq (s other : t) : bool :=
  bool_decide (cells s = cells other) && bool_decide (count s = count other).

(** [len(self.cells)] *)
Definition len (s : t) : Z := Z.of_nat (size (cells s)).

Definition mark_mine (c : cell) (s : t) : t :=
  if bool_decide (c ∈ cells s)
  then Sentence (cells s ∖ {[c]}) (count s - 1) ({[c]} ∪ known_mine_set s) (known_safe_set s)
  else s.

Definition mark_safe (c : cell) (s : t) : t :=
  if bool_decide (c ∈ cells s)
  then Sentence (cells s ∖ {[c]}) (count s) (known_mine_set s) ({[c]} ∪ known_safe_set s)
  else s.

(** [known_mines] and [known_safes] return the updated object together
    with the returned set.  The loop runs over [self.cells.copy()], a
    snapshot taken before the first [mark_mine]. *)
Definition known_mines (s : t) : t * gset cell :=
  let s' := if bool_decide (len s = count s)
            then foldl (λ acc c, mark_mine c acc) s (elements (cells s))
            else s in
  (s', known_mine_set s').

Definition known_safes (s : t) : t * gset cell :=
  let s' := if bool_decide (count s = 0%Z)
            then foldl (λ acc c, mark_safe c acc) s (elements (cells s))
            else s in
  (s', known_safe_set s').

(** [sentence.cells.remove(_cell)] guarded by [cell == _cell], in a loop
    over [sentence.cells.copy()] (lines 225-227) *)
Definition discard (c : cell) (s : t) : t :=
  Sentence (foldl (λ cs _cell, if bool_decide (c = _cell) then cs ∖ {[_cell]} else cs)
                  (cells s) (elements (cells s)))
           (count s) (known_mine_set s) (known_safe_set s).

End Sentence.

(** ** class MinesweeperAI *)
Module MinesweeperAI.

Record t := AI {
  height : Z;
  width : Z;
  moves_made : gset cell;
  mines : gset cell;
  safes : gset cell;
  knowledge : list Sentence.t }.

(** [__init__] *)
Definition init (height width : Z) : t := AI height width ∅ ∅ ∅ [].

(** A call either returns or raises [AttributeError]; in both cases the
    object is left in some state. *)
Inductive result := Ok (st : t) | AttributeError (st : t).

Definition state_of (r : result) : t :=
  match r with Ok st => st | AttributeError st => st end.

Definition mark_mine (c : cell) (st : t) : t :=
  AI (height st) (width st) (moves_made st) ({[c]} ∪ mines st) (safes st)
     (Sentence.mark_mine c <$> knowledge st).

Definition mark_safe (c : cell) (st : t) : t :=
  AI (height st) (width st) (moves_made st) (mines st) ({[c]} ∪ safes st)
     (Sentence.mark_safe c <$> knowledge st).

(** [for cell in sentence.cells.copy(): self.mark_mine(cell)] *)
Definition mark_mines (l : list cell) (st : t) : t := foldl (λ acc c, mark_mine c acc) st l.
Definition mark_safes (l : list cell) (st : t) : t := foldl (λ acc c, mark_safe c acc) st l.

Definition set_knowledge (k : list Sentence.t) (st : t) : t :=
  AI (height st) (width st) (moves_made st) (mines st) (safes st) k.

(** [sentence in self.knowledge] *)
Definition contains (s : Sentence.t) (k : list Sentence.t) : bool :=
  existsb (λ x, Sentence.eq x s) k.

(** [self.knowledge.remove(sentence)]: drops the first element equal to
    it under [__eq__] *)
Fixpoint list_remove (s : Sentence.t) (k : list Sentence.t) : list Sentence.t :=
  match k with
  | [] => []
  | x :: k' => if Sentence.eq x s then k' else x :: list_remove s k'
  end.

(** *** mark_sels_as_mine_or_safe *)

(** First loop (lines 256-267).  [self.knowledge.copy()] is a list of
    references to the sentence objects of [self.knowledge]; the list is
    not restructured during the loop, so the reference to the [i]-th
    object is its position [i], and reading the object means looking it
    up in the current state.  [sentences_to_remove] is a list of such
    references. *)
Definition scan_step (acc : t * list nat) (i : nat) : t * list nat :=
  let '(st, to_remove) := acc in
  match knowledge st !! i with
  | None => acc
  | Some sentence =>
    if bool_decide (Sentence.len sentence = 0%Z) then (st, to_remove ++ [i])
    else
      let '(st1, to_remove1) :=
        if bool_decide (Sentence.len sentence = Sentence.count sentence)
           && negb (bool_decide (Sentence.count sentence = 0%Z))
        then (mark_mines (elements (Sentence.cells sentence)) st, to_remove ++ [i])
        else (st, to_remove) in
      match knowledge st1 !! i with
      | None => (st1, to_remove1)
      | Some sentence1 =>
        if bool_decide (Sentence.count sentence1 = 0%Z)
        then (mark_safes (elements (Sentence.cells sentence1)) st1, to_remove1 ++ [i])
        else (st1, to_remove1)
      end
  end.

Definition scan (st : t) : t * list nat :=
  foldl scan_step (st, []) (seq 0 (length (knowledge st))).

(** Second loop (lines 269-271) *)
Definition remove_step (k : list Sentence.t) (sentence : Sentence.t) : list Sentence.t :=
  if contains sentence k then list_remove sentence k else k.

Definition remove_all (sentences_to_remove k : list Sentence.t) : list Sentence.t :=
  foldl remove_step k sentences_to_remove.

(** Third loop (lines 273-276): [Sentence] has no method [remove], so
    reaching line 276 raises [AttributeError] *)
Definition hits_mine (st : t) : bool :=
  existsb (λ sentence,
             existsb (λ c, bool_decide (c ∈ mines st)) (elements (Sentence.cells sentence)))
          (knowledge st).

Definition simplify (st : t) : t :=
  let '(st1, to_remove) := scan st in
  let sentences_to_remove := omap (λ i, knowledge st1 !! i) to_remove in
  set_knowledge (remove_all sentences_to_remove (knowledge st1)) st1.

Definition mark_sels_as_mine_or_safe (st : t) : result :=
  let st2 := simplify st in
  if hits_mine st2 then AttributeError st2 else Ok st2.

(** *** add_knowledge *)

(** Lines 209-218 *)
Definition neighbour_step (st : t) (c : cell) (acc : gset cell * Z) (ij : cell)
  : gset cell * Z :=
  let '(new_cells, count) := acc in
  if bool_decide (ij = c) || bool_decide (ij ∈ safes st) then acc
  else if bool_decide (ij ∈ mines st) then (new_cells, (count - 1)%Z)
  else if in_bounds (height st) (width st) ij then ({[ij]} ∪ new_cells, count)
  else acc.

Definition new_sentence (st : t) (c : cell) (count : Z) : Sentence.t :=
  let '(new_cells, count') := foldl (neighbour_step st c) (∅, count) (around c) in
  Sentence.new new_cells count'.

(** Lines 205-227 *)
Definition record_move (c : cell) (count : Z) (st : t) : t :=
  let st1 := AI (height st) (width st) ({[c]} ∪ moves_made st) (mines st) (safes st)
                (knowledge st) in
  let st2 := mark_safe c st1 in
  let s := new_sentence st2 c count in
  let st3 := if contains s (knowledge st2) then st2
             else set_knowledge (knowledge st2 ++ [s]) st2 in
  set_knowledge (Sentence.discard c <$> knowledge st3) st3.

(** Lines 232-244 *)
Definition resolve_pair (sentence _sentence : Sentence.t) : list Sentence.t :=
  if Sentence.eq sentence _sentence
     || bool_decide (Sentence.len sentence = Sentence.len _sentence) then []
  else if bool_decide (Sentence.cells sentence ⊆ Sentence.cells _sentence)
  then [Sentence.new (Sentence.cells _sentence ∖ Sentence.cells sentence)
                     (Sentence.count _sentence - Sentence.count sentence)]
  else if bool_decide (Sentence.cells _sentence ⊆ Sentence.cells sentence)
  then [Sentence.new (Sentence.cells sentence ∖ Sentence.cells _sentence)
                     (Sentence.count sentence - Sentence.count _sentence)]
  else [].

Definition new_sentences (k : list Sentence.t) : list Sentence.t :=
  sentence ← k; _sentence ← k; resolve_pair sentence _sentence.

(** Lines 245-246: [new_sentence] is an object of a class with neither
    [__bool__] nor [__len__], so [if new_sentence:] always holds *)
Definition resolution (st : t) : t :=
  set_knowledge (knowledge st ++ new_sentences (knowledge st)) st.

Definition add_knowledge (c : cell) (count : Z) (st : t) : result :=
  match mark_sels_as_mine_or_safe (record_move c count st) with
  | AttributeError st' => AttributeError st'
  | Ok st' => mark_sels_as_mine_or_safe (resolution st')
  end.

(** *** make_random_move *)

(** Lines 300-304 *)
Definition random_moves (st : t) : list cell :=
  i ← range (height st); j ← range (width st);
  if negb (bool_decide ((i, j) ∈ moves_made st)) && negb (bool_decide ((i, j) ∈ mines st))
  then [(i, j)] else [].

(** [random.choice(seq)] returns [seq[k]] for a drawn index [k] below
    [len(seq)]; the draw is the extra argument [rnd], reduced modulo the
    length. *)
Definition make_random_move (rnd : nat) (st : t) : option cell :=
  match random_moves st with
  | [] => None
  | l => l !! (rnd mod length l)%nat
  end.

(** *** make_safe_move *)

(** [for cell in self.safes] visits the set in an order Python does not
    fix; the order is the argument [visit], a list of the elements of
    [self.safes]. *)
Definition make_safe_move (visit : list cell) (st : t) : option cell :=
  find (λ c, negb (bool_decide (c ∈ moves_made st))) visit.

End MinesweeperAI.

(** ** class Minesweeper, with its board *)

(** The class as it is written, with the matrix [self.board]; the module
    [Minesweeper] above is its view through the set [self.mines]. *)
Module Game.

(** [l[i]] on a Python list: a negative index counts from the end, an
    index outside [-len(l), len(l)) raises [IndexError] ([None]). *)
Definition index {A} (l : list A) (i : Z) : option A :=
  let n := Z.of_nat (length l) in
  if (0 <=? i)%Z && (i <? n)%Z then l !! Z.to_nat i
  else if (- n <=? i)%Z && (i <? 0)%Z then l !! Z.to_nat (n + i)
  else None.

Record t := Game {
  height : Z;
  width : Z;
  mines : gset cell;
  board : list (list bool);
  mines_found : gset cell }.

(** Lines 18-23 *)
Definition empty_row (width : Z) : list bool :=
  foldl (λ row _, row ++ [false]) [] (range width).

Definition empty_board (height width : Z) : list (list bool) :=
  foldl (λ board _, board ++ [empty_row width]) [] (range height).

(** [random.randrange(n)] raises [ValueError] when [n <= 0] and otherwise
    returns a number of [range(n)]: the raw draw reduced modulo [n]. *)
Definition randrange (n : Z) (raw : nat) : option Z :=
  if (n <=? 0)%Z then None else Some (Z.of_nat raw mod n)%Z.

(** [__init__] returns the object, or raises, or is still in its [while]
    loop when the draws run out. *)
Inductive outcome :=
  | Built (g : t)
  | ValueError
  | IndexError
  | Running (g : t).

(** [self.board[i][j] = True], for [i] and [j] returned by [randrange] *)
Definition set_mine (i j : Z) (board : list (list bool)) : list (list bool) :=
  match board !! Z.to_nat i with
  | Some row => <[Z.to_nat i := <[Z.to_nat j := true]> row]> board
  | None => board
  end.

(** Lines 26-31: one pair of draws per iteration *)
Fixpoint place (wanted : Z) (draws : list (nat * nat)) (g : t) : outcome :=
  if bool_decide (Z.of_nat (size (mines g)) = wanted) then Built g
  else
    match draws with
    | [] => Running g
    | (raw_i, raw_j) :: draws' =>
      match randrange (height g) raw_i with
      | None => ValueError
      | Some i =>
        match randrange (width g) raw_j with
        | None => ValueError
        | Some j =>
          match index (board g) i ≫= (λ row, index row j) with
          | None => IndexError
          | Some true => place wanted draws' g
          | Some false =>
            place wanted draws'
                  (Game (height g) (width g) ({[ (i, j) ]} ∪ mines g)
                        (set_mine i j (board g)) (mines_found g))
          end
        end
      end
    end.

(** [__init__] *)
Definition init (height width mines : Z) (draws : list (nat * nat)) : outcome :=
  place mines draws (Game height width ∅ (empty_board height width) ∅).

Definition is_mine (g : t) (c : cell) : option bool :=
  index (board g) c.1 ≫= (λ row, index row c.2).

(** Body of the loops of [nearby_mines]; [None] is [IndexError] *)
Definition nearby_step (g : t) (c : cell) (acc : option Z) (ij : cell) : option Z :=
  count ← acc;
  if bool_decide (ij = c) then Some count
  else if in_bounds (height g) (width g) ij
       then b ← index (board g) ij.1 ≫= (λ row, index row ij.2);
            Some (if b : bool then count + 1 else count)%Z
       else Some count.

Definition nearby_mines (g : t) (c : cell) : option Z :=
  foldl (nearby_step g c) (Some 0%Z) (around c).

Definition won (g : t) : bool := bool_decide (mines_found g = mines g).

(** [print]: the text written, one list of characters per line; [None] is
    [IndexError]. *)

(** [s * n] for a string [s]: no copy at all when [n <= 0] *)
Definition times (s : list ascii) (n : Z) : list ascii :=
  mjoin (replicate (Z.to_nat n) s).

(** ["--" * self.width + "-"] *)
Definition dashes (g : t) : list ascii :=
  times ["-"; "-"]%char (width g) ++ ["-"]%char.

(** Lines 44-47, written with [end=""] *)
Definition print_cell (g : t) (i j : Z) : option (list ascii) :=
  b ← index (board g) i ≫= (λ row, index row j);
  Some (if b : bool then ["|"; "X"] else ["|"; " "])%char.

(** Lines 42-48: the line of dashes, then the cells of the row closed by
    ["|"] *)
Definition print_row (g : t) (i : Z) : option (list (list ascii)) :=
  cells ← mapM (print_cell g i) (range (width g));
  Some [dashes g; mjoin cells ++ ["|"]%char].

Definition print (g : t) : option (list (list ascii)) :=
  rows ← mapM (print_row g) (range (height g));
  Some (mjoin rows ++ [dashes g]).

(** The view of the object used by the module [Minesweeper] *)
Definition view (g : t) : Minesweeper.t :=
  Minesweeper.Game (height g) (width g) (mines g).

End Game.

(** ** pagerank.py: crawl *)
Module PageRank.

(** [s.endswith(suffix)] *)
Definition endswith (s suffix : string) : bool :=
  let n := String.length s in
  let m := String.length suffix in
  (m <=? n)%nat && String.eqb (String.substring (n - m) m s) suffix.

(** First loop of [crawl] (lines 33-39).  What [os.listdir], [f.read()] and
    [re.findall] deliver is the argument [listing]: the entries of the
    directory, each with the list of links found in its contents. *)
Definition read_step (pages : gmap string (gset string)) (entry : string * list string)
  : gmap string (gset string) :=
  let '(filename, links) := entry in
  if negb (endswith filename ".html") then pages
  else <[filename := list_to_set links ∖ {[ filename ]}]> pages.

Definition read_pages (listing : list (string * list string)) : gmap string (gset string) :=
  foldl read_step ∅ listing.

(** Second loop (lines 42-46): the dictionary is updated in place, key by
    key, while it is iterated; [link in pages] tests the keys of the
    dictionary as it is then. *)
Definition keep_step (pages : gmap string (gset string)) (filename : string)
  : gmap string (gset string) :=
  match pages !! filename with
  | Some links => <[filename := filter (λ link, link ∈ dom pages) links]> pages
  | None => pages
  end.

Definition keep_known (pages : gmap string (gset string)) : gmap string (gset string) :=
  foldl keep_step pages (map_to_list pages).*1.

Definition crawl (listing : list (string * list string)) : gmap string (gset string) :=
  keep_known (read_pages listing).

End PageRank.

(** ** Predicates used by the statements *)

(** The three kinds of sentence the simplification pass is meant to retire:
    an empty cell set, a zero count over a non-empty cell set, and a positive
    count equal to the number of cells. *)
Definition trivial (s : Sentence.t) : Prop :=
  Sentence.len s = 0%Z
  ∨ (Sentence.count s = 0%Z ∧ Sentence.len s ≠ 0%Z)
  ∨ (Sentence.count s = Sentence.len s ∧ (0 < Sentence.count s)%Z).

#[local] Instance trivial_dec (s : Sentence.t) : Decision (trivial s).
Proof. unfold trivial. apply _. Defined.

Definition settled (st : MinesweeperAI.t) : Prop :=
  ∀ s, s ∈ MinesweeperAI.knowledge st → ¬ trivial s.

(** No sentence mentions a cell already known to be a mine or safe. *)
Definition purged (st : MinesweeperAI.t) : Prop :=
  ∀ s, s ∈ MinesweeperAI.knowledge st →
       Sentence.cells s ## MinesweeperAI.mines st ∪ MinesweeperAI.safes st.

(** No sentence mentions a cell known to be a mine. *)
Definition mine_free (st : MinesweeperAI.t) : Prop :=
  ∀ s, s ∈ MinesweeperAI.knowledge st → Sentence.cells s ## MinesweeperAI.mines st.

(** [0 <= count <= len(cells)] *)
Definition count_in_range (s : Sentence.t) : Prop :=
  (0 ≤ Sentence.count s ≤ Sentence.len s)%Z.

(** The three fact sets of [st] are included in those of [st']. *)
Definition grows (st st' : MinesweeperAI.t) : Prop :=
  MinesweeperAI.moves_made st ⊆ MinesweeperAI.moves_made st'
  ∧ MinesweeperAI.safes st ⊆ MinesweeperAI.safes st'
  ∧ MinesweeperAI.mines st ⊆ MinesweeperAI.mines st'.

(** States reachable from a fresh object by any calls of the three
    mutators, with any arguments.  A call of [add_knowledge] leaves the
    object in [state_of] its outcome. *)
Inductive reachable : MinesweeperAI.t → Prop :=
  | reach_init height width : reachable (MinesweeperAI.init height width)
  | reach_add_knowledge st c count :
      reachable st →
      reachable (MinesweeperAI.state_of (MinesweeperAI.add_knowledge c count st))
  | reach_mark_mine st c :
      reachable st → reachable (MinesweeperAI.mark_mine c st)
  | reach_mark_safe st c :
      reachable st → reachable (MinesweeperAI.mark_safe c st).

(** States reachable from a fresh object by calls that never contradict
    what the object holds at the time of the call: no call reveals or marks
    as safe a cell of [mines], and no call marks as a mine a cell of
    [safes].  Cells and counts are arbitrary otherwise. *)
Inductive reachable_guarded : MinesweeperAI.t → Prop :=
  | guarded_init height width : reachable_guarded (MinesweeperAI.init height width)
  | guarded_add_knowledge st c count :
      reachable_guarded st → c ∉ MinesweeperAI.mines st →
      reachable_guarded (MinesweeperAI.state_of (MinesweeperAI.add_knowledge c count st))
  | guarded_mark_mine st c :
      reachable_guarded st → c ∉ MinesweeperAI.safes st →
      reachable_guarded (MinesweeperAI.mark_mine c st)
  | guarded_mark_safe st c :
      reachable_guarded st → c ∉ MinesweeperAI.mines st →
      reachable_guarded (MinesweeperAI.mark_safe c st).

(** Every mine of the game lies on its board. *)
Definition on_board (g : Minesweeper.t) : Prop :=
  ∀ c, c ∈ Minesweeper.mines g →
       in_bounds (Minesweeper.height g) (Minesweeper.width g) c = true.

(** States reachable when the object is driven by a game [g]: the revealed
    cell is not a mine and the count is the one the game reports;
    [mark_mine] is called on mines of [g] only, [mark_safe] on other cells
    only. *)
Inductive reachable_on (g : Minesweeper.t) : MinesweeperAI.t → Prop :=
  | play_init :
      reachable_on g (MinesweeperAI.init (Minesweeper.height g) (Minesweeper.width g))
  | play_add_knowledge st c :
      reachable_on g st →
      Minesweeper.is_mine g c = false →
      reachable_on g (MinesweeperAI.state_of
                        (MinesweeperAI.add_knowledge c (Minesweeper.nearby_mines g c) st))
  | play_mark_mine st c :
      reachable_on g st → Minesweeper.is_mine g c = true →
      reachable_on g (MinesweeperAI.mark_mine c st)
  | play_mark_safe st c :
      reachable_on g st → Minesweeper.is_mine g c = false →
      reachable_on g (MinesweeperAI.mark_safe c st).

(** The sentence counts the mines of the game among its cells. *)
Definition counts (g : Minesweeper.t) (s : Sentence.t) : Prop :=
  Sentence.count s = Z.of_nat (size (Sentence.cells s ∩ Minesweeper.mines g)).

(** The state agrees with the game: same board size, every known mine is a
    mine, no known safe cell is, and each sentence counts the mines among
    its cells. *)
Definition agrees (g : Minesweeper.t) (st : MinesweeperAI.t) : Prop :=
  MinesweeperAI.height st = Minesweeper.height g
  ∧ MinesweeperAI.width st = Minesweeper.width g
  ∧ MinesweeperAI.mines st ⊆ Minesweeper.mines g
  ∧ MinesweeperAI.safes st ## Minesweeper.mines g
  ∧ ∀ s, s ∈ MinesweeperAI.knowledge st → counts g s.

(** What [__eq__] compares in a sentence. *)
Definition view (s : Sentence.t) : gset cell * Z := (Sentence.cells s, Sentence.count s).

(** ** Games and states used as examples *)

(** A 2x4 board with mines at (1,1) and (1,3), after revealing (0,3) and
    (0,0). *)
Definition game_a : Minesweeper.t :=
  Minesweeper.Game 2 4 {[ (1, 1)%Z; (1, 3)%Z ]}.

Definition play (g : Minesweeper.t) (c : cell) (st : MinesweeperAI.t) : MinesweeperAI.t :=
  MinesweeperAI.state_of (MinesweeperAI.add_knowledge c (Minesweeper.nearby_mines g c) st).

Definition state_a : MinesweeperAI.t :=
  play game_a (0, 0)%Z (play game_a (0, 3)%Z (MinesweeperAI.init 2 4)).

(** A 2x4 board with mines at (1,1) and (1,2), after revealing (0,0), and
    after revealing (0,0) and (0,1). *)
Definition game_b : Minesweeper.t :=
  Minesweeper.Game 2 4 {[ (1, 1)%Z; (1, 2)%Z ]}.

Definition state_b : MinesweeperAI.t :=
  play game_b (0, 0)%Z (MinesweeperAI.init 2 4).

Definition state_b' : MinesweeperAI.t := play game_b (0, 1)%Z state_b.

(** A 1x2 board after [add_knowledge((0,0), 1)]: the pass has marked
    (0,1) as a mine. *)
Definition state_m : MinesweeperAI.t :=
  MinesweeperAI.state_of (MinesweeperAI.add_knowledge (0, 0)%Z 1 (MinesweeperAI.init 1 2)).

(** The eight neighbours of (1,1). *)
Definition ring_1_1 : gset cell :=
  {[ (0, 0)%Z; (0, 1)%Z; (0, 2)%Z; (1, 0)%Z; (1, 2)%Z; (2, 0)%Z; (2, 1)%Z; (2, 2)%Z ]}.

(** The board of the object is a [height] x [width] matrix that holds
    [True] exactly at the cells of [self.mines], all of them on the board,
    and no mine was found yet. *)
Definition board_at (g : Game.t) (i j : Z) : option bool :=
  Game.board g !! Z.to_nat i ≫= (λ row, row !! Z.to_nat j).

Definition well_formed (g : Game.t) : Prop :=
  length (Game.board g) = Z.to_nat (Game.height g)
  ∧ Forall (λ row, length row = Z.to_nat (Game.width g)) (Game.board g)
  ∧ (∀ i j, in_bounds (Game.height g) (Game.width g) (i, j) = true →
            board_at g i j = Some (bool_decide ((i, j) ∈ Game.mines g)))
  ∧ (∀ c, c ∈ Game.mines g → in_bounds (Game.height g) (Game.width g) c = true)
  ∧ Game.mines_found g = ∅.

(** The cells next to [c] on a board of the given size. *)
Definition neighbours (height width : Z) (c : cell) : gset cell :=
  list_to_set (filter (λ ij, in_bounds height width ij = true) (around c)) ∖ {[ c ]}.

(** All cells any sentence of the knowledge base mentions. *)
Definition mentioned (st : MinesweeperAI.t) : gset cell :=
  ⋃ (Sentence.cells <$> MinesweeperAI.knowledge st).

(** All cells of a [height] x [width] board, row by row. *)
Definition board_cells (height width : Z) : list cell :=
  i ← range height; j ← range width; [(i, j)].

(** The raw draws that [randrange] turns into the cell [c]. *)
Definition raw_of (c : cell) : nat * nat := (Z.to_nat c.1, Z.to_nat c.2).

(** A 1x3 board with a mine at (0,2), after revealing (0,0). *)
Definition game_c : Minesweeper.t := Minesweeper.Game 1 3 {[ (0, 2)%Z ]}.

Definition state_c : MinesweeperAI.t := play game_c (0, 0)%Z (MinesweeperAI.init 1 3).

(** No sentence of the knowledge base mentions the cell. *)
Definition unmentioned (c : cell) (st : MinesweeperAI.t) : Prop :=
  ∀ s, s ∈ MinesweeperAI.knowledge st → c ∉ Sentence.cells s.

(** The cells the object has an opinion about: known mines, known safe
    cells and cells some sentence mentions. *)
Definition footprint (st : MinesweeperAI.t) : gset cell :=
  MinesweeperAI.mines st ∪ MinesweeperAI.safes st ∪ mentioned st.

(** What a simplification pass may change between [st] and [st']: the
    board size and the moves stay, the fact sets grow, no sentence gains a
    cell, and the footprint is the same. *)
Definition frame (st st' : MinesweeperAI.t) : Prop :=
  MinesweeperAI.height st' = MinesweeperAI.height st
  ∧ MinesweeperAI.width st' = MinesweeperAI.width st
  ∧ MinesweeperAI.moves_made st' = MinesweeperAI.moves_made st
  ∧ MinesweeperAI.mines st ⊆ MinesweeperAI.mines st'
  ∧ MinesweeperAI.safes st ⊆ MinesweeperAI.safes st'
  ∧ mentioned st' ⊆ mentioned st
  ∧ footprint st' = footprint st.

(** During a pass begun in [st0], with [Km] and [Ks] the cells marked so
    far as mines and as safe: the fact sets have gained these cells, all of
    them were mentioned in [st0], and the knowledge list holds, position by
    position, the sentences of [st0] without these cells. *)
Definition marked (st0 st : MinesweeperAI.t) (Km Ks : gset cell) : Prop :=
  MinesweeperAI.mines st = MinesweeperAI.mines st0 ∪ Km
  ∧ MinesweeperAI.safes st = MinesweeperAI.safes st0 ∪ Ks
  ∧ Km ∪ Ks ⊆ mentioned st0
  ∧ Forall2 (λ s s1, Sentence.cells s1 = Sentence.cells s ∖ (Km ∪ Ks))
            (MinesweeperAI.knowledge st0) (MinesweeperAI.knowledge st).

(** The sentences at the positions [tr] of the knowledge list have no cell
    left. *)
Definition emptied (st : MinesweeperAI.t) (tr : list nat) : Prop :=
  Forall (λ j, ∀ s, MinesweeperAI.knowledge st !! j = Some s → Sentence.cells s = ∅) tr.

(** While a pass has not reached the sentence at position [i0], that
    sentence holds the cells of [C0] that are not yet in the fact set
    [known]. *)
Definition pending (g : Minesweeper.t) (known : MinesweeperAI.t → gset cell)
    (C0 : gset cell) (i0 : nat) (st : MinesweeperAI.t) : Prop :=
  agrees g st
  ∧ ∃ s, MinesweeperAI.knowledge st !! i0 = Some s
         ∧ Sentence.cells s ⊆ C0 ∧ C0 ⊆ Sentence.cells s ∪ known st.

(** A 2x2 game with mines at (0,1) and (1,0), as [__init__] builds it. *)
Definition game_d : Game.t :=
  Game.Game 2 2 {[ (1, 0)%Z; (0, 1)%Z ]} [[false; true]; [true; false]] ∅.

(** The cells of a row, as [print] writes them from the mine set. *)
Definition row_text (g : Game.t) (i : Z) (js : list Z) : list (list ascii) :=
  (λ j, if bool_decide ((i, j) ∈ Game.mines g)
        then ["|"; "X"]%char else ["|"; " "]%char) <$> js.

(** ** Sentences *)
Section sentence.
Implicit Types (s : Sentence.t) (c : cell) (l : list cell).

Lemma sentence_mark_mine_cells c s :
  Sentence.cells (Sentence.mark_mine c s) = Sentence.cells s ∖ {[c]}.
Proof.
  unfold Sentence.mark_mine. case_bool_decide; simpl; [done|]. set_solver.
Qed.

Lemma sentence_mark_safe_cells c s :
  Sentence.cells (Sentence.mark_safe c s) = Sentence.cells s ∖ {[c]}.
Proof.
  unfold Sentence.mark_safe. case_bool_decide; simpl; [done|]. set_solver.
Qed.

Lemma sentence_mark_safe_count c s :
  Sentence.count (Sentence.mark_safe c s) = Sentence.count s.
Proof. unfold Sentence.mark_safe. by case_bool_decide. Qed.

Lemma sentence_mark_mine_idemp c s :
  Sentence.mark_mine c (Sentence.mark_mine c s) = Sentence.mark_mine c s.
Proof.
  unfold Sentence.mark_mine. destruct (decide (c ∈ Sentence.cells s)) as [Hc|Hc].
  - rewrite (bool_decide_eq_true_2 _ Hc); simpl.
    rewrite bool_decide_eq_false_2; [done|]. set_solver.
  - by rewrite !(bool_decide_eq_false_2 _ Hc).
Qed.

Lemma sentence_mark_safe_idemp c s :
  Sentence.mark_safe c (Sentence.mark_safe c s) = Sentence.mark_safe c s.
Proof.
  unfold Sentence.mark_safe. destruct (decide (c ∈ Sentence.cells s)) as [Hc|Hc].
  - rewrite (bool_decide_eq_true_2 _ Hc); simpl.
    rewrite bool_decide_eq_false_2; [done|]. set_solver.
  - by rewrite !(bool_decide_eq_false_2 _ Hc).
Qed.

(** Marking the cells of a list as mines, one after the other. *)
Lemma sentence_mark_mines l : ∀ s,
  let s' := foldl (λ acc c, Sentence.mark_mine c acc) s l in
  Sentence.cells s' = Sentence.cells s ∖ list_to_set l
  ∧ Sentence.count s' =
      (Sentence.count s - Z.of_nat (size (Sentence.cells s ∩ list_to_set l)))%Z
  ∧ Sentence.known_mine_set s' =
      (Sentence.cells s ∩ list_to_set l) ∪ Sentence.known_mine_set s
  ∧ Sentence.known_safe_set s' = Sentence.known_safe_set s.
Proof.
  induction l as [|x l IH]; intros s; simpl.
  - repeat split; try set_solver.
    replace (Sentence.cells s ∩ ∅) with (∅ : gset cell) by set_solver.
    rewrite size_empty. lia.
  - destruct (IH (Sentence.mark_mine x s)) as (Hc & Hn & Hm & Hs).
    rewrite Hc, Hn, Hm, Hs. clear IH Hc Hn Hm Hs.
    unfold Sentence.mark_mine. case_bool_decide as Hx; simpl.
    + assert (Sentence.cells s ∩ ({[x]} ∪ list_to_set l)
              = {[x]} ∪ (Sentence.cells s ∖ {[x]}) ∩ list_to_set l) as ->
        by (apply set_eq; intros y; destruct (decide (y = x)); set_solver).
      rewrite (size_union {[x]}), size_singleton by set_solver.
      repeat split; try set_solver. lia.
    + assert (Sentence.cells s ∩ ({[x]} ∪ list_to_set l)
              = Sentence.cells s ∩ list_to_set l) as -> by set_solver.
      repeat split; set_solver.
Qed.

Lemma sentence_mark_safes l : ∀ s,
  let s' := foldl (λ acc c, Sentence.mark_safe c acc) s l in
  Sentence.cells s' = Sentence.cells s ∖ list_to_set l
  ∧ Sentence.count s' = Sentence.count s
  ∧ Sentence.known_mine_set s' = Sentence.known_mine_set s
  ∧ Sentence.known_safe_set s' =
      (Sentence.cells s ∩ list_to_set l) ∪ Sentence.known_safe_set s.
Proof.
  induction l as [|x l IH]; intros s; simpl.
  - repeat split; set_solver.
  - destruct (IH (Sentence.mark_safe x s)) as (Hc & Hn & Hm & Hs).
    rewrite Hc, Hn, Hm, Hs. clear IH Hc Hn Hm Hs.
    unfold Sentence.mark_safe. case_bool_decide as Hx; simpl.
    + repeat split; try set_solver.
      apply set_eq; intros y; destruct (decide (y = x)); set_solver.
    + repeat split; set_solver.
Qed.

Lemma sentence_discard_cells c s :
  Sentence.cells (Sentence.discard c s) = Sentence.cells s ∖ {[c]}.
Proof.
  unfold Sentence.discard; simpl.
  assert (∀ l (cs : gset cell),
    foldl (λ cs _cell, if bool_decide (c = _cell) then cs ∖ {[_cell]} else cs) cs l
    = if bool_decide (c ∈ l) then cs ∖ {[c]} else cs) as Hfold.
  { induction l as [|x l IH]; intros cs; simpl; [done|].
    rewrite IH. destruct (decide (c = x)) as [->|Hne].
    - rewrite (bool_decide_eq_true_2 (x = x)) by done.
      rewrite (bool_decide_eq_true_2 (x ∈ x :: l)) by apply list_elem_of_here.
      case_bool_decide; set_solver.
    - rewrite (bool_decide_eq_false_2 (c = x)) by done.
      rewrite (bool_decide_ext (c ∈ x :: l) (c ∈ l)); [done|].
      rewrite elem_of_cons. naive_solver. }
  rewrite Hfold. case_bool_decide as Hc; [done|].
  rewrite elem_of_elements in Hc. set_solver.
Qed.

End sentence.

(** ** Loop invariants of the knowledge base *)
Section loops.
Import MinesweeperAI.
Implicit Types (st : MinesweeperAI.t) (s : Sentence.t) (c : cell)
               (k : list Sentence.t) (l : list cell).

Lemma mark_mines_ind (P : MinesweeperAI.t → Prop) l : ∀ st,
  (∀ c st', c ∈ l → P st' → P (mark_mine c st')) → P st → P (mark_mines l st).
Proof.
  unfold mark_mines. induction l as [|x l IH]; intros st Hstep Hst; simpl; [done|].
  apply IH.
  - intros c st' Hc. apply Hstep. by apply list_elem_of_further.
  - apply Hstep; [apply list_elem_of_here | done].
Qed.

Lemma mark_safes_ind (P : MinesweeperAI.t → Prop) l : ∀ st,
  (∀ c st', c ∈ l → P st' → P (mark_safe c st')) → P st → P (mark_safes l st).
Proof.
  unfold mark_safes. induction l as [|x l IH]; intros st Hstep Hst; simpl; [done|].
  apply IH.
  - intros c st' Hc. apply Hstep. by apply list_elem_of_further.
  - apply Hstep; [apply list_elem_of_here | done].
Qed.

Lemma list_remove_subseteq s k : list_remove s k ⊆ k.
Proof.
  induction k as [|x k IH]; simpl; [done|].
  destruct (Sentence.eq x s); set_solver.
Qed.

Lemma remove_all_subseteq (rs : list Sentence.t) : ∀ k, remove_all rs k ⊆ k.
Proof.
  unfold remove_all. induction rs as [|r rs IH]; intros k; simpl; [done|].
  etrans; [apply IH|]. unfold remove_step.
  destruct (contains r k); [apply list_remove_subseteq | done].
Qed.

(** A property that survives the two marking branches of the first loop
    and the removal of sentences survives a whole simplification pass. *)
Section pass.
Variable P : MinesweeperAI.t → Prop.
Hypothesis P_mines : ∀ st s,
  P st → s ∈ knowledge st →
  Sentence.len s = Sentence.count s → Sentence.count s ≠ 0%Z →
  P (mark_mines (elements (Sentence.cells s)) st).
Hypothesis P_safes : ∀ st s,
  P st → s ∈ knowledge st → Sentence.count s = 0%Z →
  P (mark_safes (elements (Sentence.cells s)) st).
Hypothesis P_remove : ∀ st k,
  P st → k ⊆ knowledge st → P (set_knowledge k st).

Lemma scan_step_ind st (tr : list nat) i : P st → P (scan_step (st, tr) i).1.
Proof.
  intros Hst. unfold scan_step.
  destruct (knowledge st !! i) as [s|] eqn:Hs; [|done].
  case_bool_decide as Hlen; [done|].
  assert (s ∈ knowledge st) as Hin by (by eapply list_elem_of_lookup_2).
  destruct (bool_decide (Sentence.len s = Sentence.count s)
            && negb (bool_decide (Sentence.count s = 0%Z))) eqn:Hm.
  - apply andb_true_iff in Hm as [Hm1 Hm2].
    apply bool_decide_eq_true_1 in Hm1.
    apply negb_true_iff, bool_decide_eq_false_1 in Hm2.
    specialize (P_mines st s Hst Hin Hm1 Hm2).
    destruct (knowledge (mark_mines _ st) !! i) as [s1|] eqn:Hs1; [|done].
    case_bool_decide as Hz; simpl; [|done].
    apply P_safes; [done | by eapply list_elem_of_lookup_2 | done].
  - clear Hm. rewrite Hs. case_bool_decide as Hz; simpl; [|done].
    by apply P_safes.
Qed.

Lemma scan_ind st : P st → P (scan st).1.
Proof.
  unfold scan. generalize (seq 0 (length (knowledge st))) as idx.
  generalize (@nil nat) as tr. intros tr idx. revert st tr.
  induction idx as [|i idx IH]; intros st tr Hst; [done|].
  change (P (foldl scan_step (scan_step (st, tr) i) idx).1).
  pose proof (scan_step_ind st tr i Hst) as Hstep.
  destruct (scan_step (st, tr) i) as [st' tr']. by apply IH.
Qed.

Lemma simplify_ind st : P st → P (simplify st).
Proof.
  intros Hst. unfold simplify.
  pose proof (scan_ind st Hst) as Hscan.
  destruct (scan st) as [st1 tr]. simpl in Hscan.
  apply P_remove; [done|]. apply remove_all_subseteq.
Qed.
End pass.

Lemma state_of_mark_sels st :
  state_of (mark_sels_as_mine_or_safe st) = simplify st.
Proof. unfold mark_sels_as_mine_or_safe. by destruct (hits_mine _). Qed.

Lemma state_of_add_knowledge c n st :
  state_of (add_knowledge c n st) =
    let st1 := simplify (record_move c n st) in
    if hits_mine st1 then st1 else simplify (resolution st1).
Proof.
  unfold add_knowledge. unfold mark_sels_as_mine_or_safe at 1.
  cbv zeta. destruct (hits_mine (simplify (record_move c n st))); [done|].
  apply state_of_mark_sels.
Qed.

(** Hence a property that moreover survives lines 205-227 and the
    resolution step holds after [add_knowledge], whatever its outcome. *)
Lemma add_knowledge_ind (P : MinesweeperAI.t → Prop) c n st :
  (∀ st s, P st → s ∈ knowledge st →
           Sentence.len s = Sentence.count s → Sentence.count s ≠ 0%Z →
           P (mark_mines (elements (Sentence.cells s)) st)) →
  (∀ st s, P st → s ∈ knowledge st → Sentence.count s = 0%Z →
           P (mark_safes (elements (Sentence.cells s)) st)) →
  (∀ st k, P st → k ⊆ knowledge st → P (set_knowledge k st)) →
  (∀ st, P st → P (resolution st)) →
  P (record_move c n st) →
  P (state_of (add_knowledge c n st)).
Proof.
  intros Hm Hs Hr Hres Hrec. rewrite state_of_add_knowledge. simpl.
  assert (P (simplify (record_move c n st))) by by apply simplify_ind.
  destruct (hits_mine _); [done|].
  apply simplify_ind; auto.
Qed.

(** What the two loops building the new sentence and the derived
    sentences produce. *)
Lemma new_sentence_cells st c n x :
  x ∈ Sentence.cells (new_sentence st c n) →
  x ∈ around c ∧ x ≠ c ∧ (x ∉ safes st) ∧ (x ∉ mines st)
  ∧ in_bounds (height st) (width st) x = true.
Proof.
  unfold new_sentence.
  assert (∀ l (acc : gset cell * Z),
    x ∈ (foldl (neighbour_step st c) acc l).1 →
    x ∈ acc.1 ∨ (x ∈ l ∧ x ≠ c ∧ (x ∉ safes st) ∧ (x ∉ mines st)
                 ∧ in_bounds (height st) (width st) x = true)) as Hfold.
  { induction l as [|ij l IH]; intros acc Hx; simpl in *; [by left|].
    apply IH in Hx as [Hx|Hx]; [|set_solver].
    destruct acc as [nc k]. unfold neighbour_step in Hx.
    destruct (bool_decide (ij = c) || bool_decide (ij ∈ safes st)) eqn:H1; [by left|].
    apply orb_false_iff in H1 as [H1 H2].
    apply bool_decide_eq_false_1 in H1. apply bool_decide_eq_false_1 in H2.
    case_bool_decide as H3; [by left|].
    destruct (in_bounds _ _ ij) eqn:H4; [|by left].
    simpl in Hx. apply elem_of_union in Hx as [Hx|Hx]; [|by left].
    apply elem_of_singleton in Hx as ->. right. set_solver. }
  intros Hx. specialize (Hfold (around c) (∅, n)).
  destruct (foldl _ _ _) as [nc k]. simpl in *.
  destruct (Hfold Hx) as [?|?]; [set_solver | done].
Qed.

Lemma elem_of_resolve_pair x s1 s2 :
  x ∈ resolve_pair s1 s2 →
  ∃ s s', ((s = s1 ∧ s' = s2) ∨ (s = s2 ∧ s' = s1))
          ∧ Sentence.cells s ⊆ Sentence.cells s'
          ∧ x = Sentence.new (Sentence.cells s' ∖ Sentence.cells s)
                             (Sentence.count s' - Sentence.count s).
Proof.
  unfold resolve_pair. destruct (_ || _); [by intros ?%elem_of_nil|].
  case_bool_decide as H1.
  { intros ->%list_elem_of_singleton. exists s1, s2. naive_solver. }
  case_bool_decide as H2; [|by intros ?%elem_of_nil].
  intros ->%list_elem_of_singleton. exists s2, s1. naive_solver.
Qed.

Lemma elem_of_new_sentences x k :
  x ∈ new_sentences k →
  ∃ s s', s ∈ k ∧ s' ∈ k ∧ Sentence.cells s ⊆ Sentence.cells s'
          ∧ x = Sentence.new (Sentence.cells s' ∖ Sentence.cells s)
                             (Sentence.count s' - Sentence.count s).
Proof.
  unfold new_sentences. intros (s1 & Hx & Hs1)%list_elem_of_bind.
  apply list_elem_of_bind in Hx as (s2 & Hx & Hs2).
  apply elem_of_resolve_pair in Hx as (s & s' & Hor & Hsub & ->).
  exists s, s'. naive_solver.
Qed.

End loops.

(** ** No sentence mentions a known cell *)
Section purge.
Import MinesweeperAI.
Implicit Types (st : MinesweeperAI.t) (s : Sentence.t) (c : cell)
               (k : list Sentence.t) (l : list cell).

Lemma purged_mark_mine c st : purged st → purged (mark_mine c st).
Proof.
  intros Hp s' Hs'. simpl in Hs'.
  apply list_elem_of_fmap in Hs' as (s & -> & Hs).
  rewrite sentence_mark_mine_cells. simpl. specialize (Hp s Hs). set_solver.
Qed.

Lemma purged_mark_safe c st : purged st → purged (mark_safe c st).
Proof.
  intros Hp s' Hs'. simpl in Hs'.
  apply list_elem_of_fmap in Hs' as (s & -> & Hs).
  rewrite sentence_mark_safe_cells. simpl. specialize (Hp s Hs). set_solver.
Qed.

Lemma purged_set_knowledge st k :
  purged st → k ⊆ knowledge st → purged (set_knowledge k st).
Proof. intros Hp Hk s Hs. apply (Hp s). by apply Hk. Qed.

Lemma purged_simplify st : purged st → purged (simplify st).
Proof.
  apply simplify_ind.
  - intros st' s Hp _ _ _. apply mark_mines_ind; [|done].
    intros. by apply purged_mark_mine.
  - intros st' s Hp _ _. apply mark_safes_ind; [|done].
    intros. by apply purged_mark_safe.
  - apply purged_set_knowledge.
Qed.

Lemma purged_record_move c n st : purged st → purged (record_move c n st).
Proof.
  intros Hp. unfold record_move.
  set (st1 := AI _ _ _ _ _ _).
  assert (purged (mark_safe c st1)) as Hp2 by by apply purged_mark_safe.
  set (st2 := mark_safe c st1) in *.
  set (new := new_sentence st2 c n).
  assert (purged (set_knowledge (knowledge st2 ++ [new]) st2)) as Hp3.
  { intros s [Hs| ->%list_elem_of_singleton]%elem_of_app; [by apply Hp2|].
    simpl. apply elem_of_disjoint. intros x Hx Hx'.
    apply new_sentence_cells in Hx. set_solver. }
  assert (∀ st3, purged st3 →
            purged (set_knowledge (Sentence.discard c <$> knowledge st3) st3)) as Hd.
  { intros st3 Hp' s' Hs'. simpl in Hs'.
    apply list_elem_of_fmap in Hs' as (s & -> & Hs).
    rewrite sentence_discard_cells. simpl. specialize (Hp' s Hs). set_solver. }
  destruct (contains new (knowledge st2)); by apply Hd.
Qed.

Lemma purged_resolution st : purged st → purged (resolution st).
Proof.
  intros Hp s [Hs|Hs]%elem_of_app; [by apply Hp|].
  apply elem_of_new_sentences in Hs as (s1 & s2 & _ & H2 & _ & ->).
  simpl. specialize (Hp s2 H2). set_solver.
Qed.

Lemma purged_add_knowledge c n st :
  purged st → purged (state_of (add_knowledge c n st)).
Proof.
  intros Hp. rewrite state_of_add_knowledge. cbv zeta.
  assert (purged (simplify (record_move c n st)))
    by by apply purged_simplify, purged_record_move.
  destruct (hits_mine _); [done|].
  by apply purged_simplify, purged_resolution.
Qed.

Lemma purged_reachable st : reachable st → purged st.
Proof.
  induction 1 as [h w|st c n _ IH|st c _ IH|st c _ IH].
  - intros s Hs. by apply elem_of_nil in Hs.
  - by apply purged_add_knowledge.
  - by apply purged_mark_mine.
  - by apply purged_mark_safe.
Qed.

(** On such a state line 276 is not reached. *)
Lemma purged_hits_mine st : purged st → hits_mine st = false.
Proof.
  intros Hp. unfold hits_mine. apply not_true_is_false. intros Hex.
  apply existsb_exists in Hex as (s & Hs & Hex).
  apply existsb_exists in Hex as (x & Hx & Hm).
  apply list_elem_of_In in Hs, Hx. apply elem_of_elements in Hx.
  apply bool_decide_eq_true_1 in Hm. specialize (Hp s Hs). set_solver.
Qed.

End purge.

(** ** The fact sets only grow *)
Section growth.
Import MinesweeperAI.
Implicit Types (st : MinesweeperAI.t) (c : cell).

Lemma grows_refl st : grows st st.
Proof. by repeat split. Qed.

Lemma grows_mark_mine st0 st c : grows st0 st → grows st0 (mark_mine c st).
Proof. unfold grows. simpl. set_solver. Qed.

Lemma grows_mark_safe st0 st c : grows st0 st → grows st0 (mark_safe c st).
Proof. unfold grows. simpl. set_solver. Qed.

Lemma grows_record_move st c n : grows st (record_move c n st).
Proof.
  unfold grows, record_move. destruct (contains _ _); simpl; set_solver.
Qed.

Lemma grows_add_knowledge st c n : grows st (state_of (add_knowledge c n st)).
Proof.
  apply (add_knowledge_ind (grows st)).
  - intros st' s Hg _ _ _. apply mark_mines_ind; [|done].
    intros. by apply grows_mark_mine.
  - intros st' s Hg _ _. apply mark_safes_ind; [|done].
    intros. by apply grows_mark_safe.
  - by intros st' k Hg _.
  - by intros st' Hg.
  - apply grows_record_move.
Qed.

End growth.

(** ** The candidate list of [make_random_move] *)
Section random.
Import MinesweeperAI.

Lemma elem_of_range n i : i ∈ range n ↔ (0 ≤ i < n)%Z.
Proof.
  unfold range. rewrite list_elem_of_fmap. split.
  - intros (j & -> & Hj%elem_of_seq). lia.
  - intros Hi. exists (Z.to_nat i). rewrite elem_of_seq. lia.
Qed.

Lemma elem_of_random_moves st c :
  c ∈ random_moves st ↔
  in_bounds (height st) (width st) c = true ∧ (c ∉ moves_made st) ∧ (c ∉ mines st).
Proof.
  unfold random_moves, in_bounds. destruct c as [i j]. simpl.
  rewrite list_elem_of_bind. setoid_rewrite list_elem_of_bind.
  setoid_rewrite elem_of_range. split.
  - intros (i' & (j' & Hc & Hj) & Hi).
    destruct (negb _ && negb _) eqn:Hfree; [|by apply elem_of_nil in Hc].
    apply list_elem_of_singleton in Hc. injection Hc as -> ->.
    apply andb_true_iff in Hfree as [H1 H2].
    apply negb_true_iff, bool_decide_eq_false_1 in H1.
    apply negb_true_iff, bool_decide_eq_false_1 in H2.
    repeat split; [|done|done].
    rewrite !andb_true_iff, !Z.leb_le, !Z.ltb_lt. lia.
  - intros (Hb & H1 & H2).
    rewrite !andb_true_iff, !Z.leb_le, !Z.ltb_lt in Hb.
    exists i. split; [|lia]. exists j. split; [|lia].
    rewrite !bool_decide_eq_false_2 by done. simpl. apply list_elem_of_here.
Qed.

End random.

(** ** Agreement with the game *)
Section agreement.
Import MinesweeperAI.
Variable g : Minesweeper.t.
Hypothesis g_on_board : on_board g.
Implicit Types (st : MinesweeperAI.t) (s : Sentence.t) (c : cell)
               (k : list Sentence.t) (l : list cell).

Local Abbreviation M := (Minesweeper.mines g).

Local Abbreviation counts := (counts g).

Lemma size_remove_mine (X : gset cell) c :
  c ∈ X → c ∈ M → size (X ∩ M) = S (size ((X ∖ {[c]}) ∩ M)).
Proof.
  intros HX HM.
  assert (X ∩ M = {[c]} ∪ (X ∖ {[c]}) ∩ M) as ->
    by (apply set_eq; intros y; destruct (decide (y = c)); set_solver).
  rewrite (size_union {[c]}), size_singleton by set_solver. done.
Qed.

Lemma counts_mark_mine c s : c ∈ M → counts s → counts (Sentence.mark_mine c s).
Proof.
  unfold counts, Sentence.mark_mine. intros HM Hs.
  case_bool_decide as Hc; simpl; [|done].
  rewrite Hs, (size_remove_mine _ c) by done. lia.
Qed.

Lemma counts_mark_safe c s : c ∉ M → counts s → counts (Sentence.mark_safe c s).
Proof.
  unfold counts. intros HM Hs.
  rewrite sentence_mark_safe_count, sentence_mark_safe_cells, Hs.
  do 2 f_equal. set_solver.
Qed.

Lemma counts_discard c s : c ∉ M → counts s → counts (Sentence.discard c s).
Proof.
  unfold counts. intros HM Hs. rewrite sentence_discard_cells. simpl.
  rewrite Hs. do 2 f_equal. set_solver.
Qed.

Lemma counts_all_mines s :
  counts s → Sentence.len s = Sentence.count s → Sentence.cells s ⊆ M.
Proof.
  unfold counts, Sentence.len. intros Hs Hlen.
  assert (Sentence.cells s ∩ M = Sentence.cells s) as Heq.
  { apply set_subseteq_size_eq; [set_solver | lia]. }
  set_solver.
Qed.

Lemma counts_no_mines s :
  counts s → Sentence.count s = 0%Z → Sentence.cells s ## M.
Proof.
  unfold counts. intros Hs Hz.
  assert (size (Sentence.cells s ∩ M) = 0) as Hsz by lia.
  apply size_empty_iff in Hsz. set_solver.
Qed.

Lemma counts_difference s s' :
  counts s → counts s' → Sentence.cells s ⊆ Sentence.cells s' →
  counts (Sentence.new (Sentence.cells s' ∖ Sentence.cells s)
                       (Sentence.count s' - Sentence.count s)).
Proof.
  unfold counts. intros Hs Hs' Hsub. simpl. rewrite Hs, Hs'.
  assert ((Sentence.cells s' ∖ Sentence.cells s) ∩ M
          = (Sentence.cells s' ∩ M) ∖ (Sentence.cells s ∩ M)) as -> by set_solver.
  assert (Sentence.cells s ∩ M ⊆ Sentence.cells s' ∩ M) as Hsub' by set_solver.
  rewrite (size_difference (Sentence.cells s' ∩ M) (Sentence.cells s ∩ M)) by done.
  apply subseteq_size in Hsub'. lia.
Qed.

Lemma agrees_mark_mine c st : c ∈ M → agrees g st → agrees g (mark_mine c st).
Proof.
  intros HM (Hh & Hw & Hm & Hs & Hk).
  unfold agrees; simpl; split_and!; [done | done | set_solver | set_solver |].
  intros s' (s & -> & Hs')%list_elem_of_fmap. apply counts_mark_mine; [done | by apply Hk].
Qed.

Lemma agrees_mark_safe c st : c ∉ M → agrees g st → agrees g (mark_safe c st).
Proof.
  intros HM (Hh & Hw & Hm & Hs & Hk).
  unfold agrees; simpl; split_and!; [done | done | set_solver | set_solver |].
  intros s' (s & -> & Hs')%list_elem_of_fmap. apply counts_mark_safe; [done | by apply Hk].
Qed.

Lemma agrees_set_knowledge st k :
  agrees g st → k ⊆ knowledge st → agrees g (set_knowledge k st).
Proof.
  intros (Hh & Hw & Hm & Hs & Hk) Hsub.
  unfold agrees; simpl; split_and!; [done | done | done | done |].
  intros s Hin. apply Hk. by apply Hsub.
Qed.

Lemma agrees_simplify st : agrees g st → agrees g (simplify st).
Proof.
  apply simplify_ind.
  - intros st' s Ha Hin Hlen _.
    assert (Sentence.cells s ⊆ M) as Hsub
      by (apply counts_all_mines; [by apply Ha | done]).
    apply mark_mines_ind; [|done].
    intros c st'' Hc%elem_of_elements. apply agrees_mark_mine. set_solver.
  - intros st' s Ha Hin Hz.
    assert (Sentence.cells s ## M) as Hdisj
      by (apply counts_no_mines; [by apply Ha | done]).
    apply mark_safes_ind; [|done].
    intros c st'' Hc%elem_of_elements. apply agrees_mark_safe. set_solver.
  - apply agrees_set_knowledge.
Qed.

Lemma agrees_resolution st : agrees g st → agrees g (resolution st).
Proof.
  intros (Hh & Hw & Hm & Hs & Hk).
  unfold agrees; simpl; split_and!; [done | done | done | done |].
  intros s [Hin|Hin]%elem_of_app; [by apply Hk|].
  apply elem_of_new_sentences in Hin as (s1 & s2 & H1 & H2 & Hsub & ->).
  apply counts_difference; [by apply Hk | by apply Hk | done].
Qed.

Lemma NoDup_around c : NoDup (around c).
Proof.
  destruct c as [a b]. unfold around, range3. cbn.
  repeat (apply NoDup_cons; split;
          [rewrite ?elem_of_cons, elem_of_nil; intros Hin;
           decompose [or] Hin; simplify_eq; lia|]).
  apply NoDup_nil_2.
Qed.

(** The loops of [add_knowledge] and of [nearby_mines] run over the same
    cells: what the first subtracts for known mines and keeps as unknown
    mines is what the second counts. *)
Lemma neighbour_fold l : ∀ st c (acc : gset cell * Z) (cnt : Z),
  agrees g st → NoDup l → (∀ x, x ∈ l → x ∉ acc.1) →
  let r := foldl (neighbour_step st c) acc l in
  (r.2 - Z.of_nat (size (r.1 ∩ M)) + foldl (Minesweeper.nearby_step g c) cnt l
   = acc.2 - Z.of_nat (size (acc.1 ∩ M)) + cnt)%Z.
Proof.
  induction l as [|ij l IH]; intros st c acc cnt Ha Hnd Hfresh; [done|].
  apply NoDup_cons in Hnd as [Hij Hnd].
  change (foldl (neighbour_step st c) acc (ij :: l))
    with (foldl (neighbour_step st c) (neighbour_step st c acc ij) l).
  change (foldl (Minesweeper.nearby_step g c) cnt (ij :: l))
    with (foldl (Minesweeper.nearby_step g c) (Minesweeper.nearby_step g c cnt ij) l).
  cbv zeta. rewrite IH; [|done|done|].
  - destruct Ha as (Hh & Hw & Hm & Hs & _). destruct acc as [nc k].
    unfold neighbour_step, Minesweeper.nearby_step, Minesweeper.is_mine.
    rewrite Hh, Hw. simpl.
    destruct (decide (ij = c)) as [Hc|Hc].
    { by rewrite !(bool_decide_eq_true_2 _ Hc). }
    rewrite !(bool_decide_eq_false_2 _ Hc). simpl.
    destruct (decide (ij ∈ safes st)) as [Hsafe|Hsafe].
    { rewrite (bool_decide_eq_true_2 _ Hsafe).
      rewrite (bool_decide_eq_false_2 (ij ∈ M)) by set_solver.
      by destruct (in_bounds _ _ ij). }
    rewrite (bool_decide_eq_false_2 _ Hsafe).
    destruct (decide (ij ∈ mines st)) as [Hmine|Hmine].
    { rewrite (bool_decide_eq_true_2 _ Hmine).
      rewrite (bool_decide_eq_true_2 (ij ∈ M)) by set_solver.
      rewrite g_on_board by set_solver. simpl. lia. }
    rewrite (bool_decide_eq_false_2 _ Hmine).
    destruct (in_bounds _ _ ij); [|done]. simpl.
    assert (ij ∉ nc) as Hnc by (apply (Hfresh ij), list_elem_of_here).
    destruct (decide (ij ∈ M)) as [HM|HM].
    + rewrite (bool_decide_eq_true_2 _ HM).
      rewrite (size_remove_mine ({[ij]} ∪ nc) ij) by set_solver.
      assert (({[ij]} ∪ nc) ∖ {[ij]} = nc) as -> by set_solver. lia.
    + rewrite (bool_decide_eq_false_2 _ HM).
      assert (({[ij]} ∪ nc) ∩ M = nc ∩ M) as -> by set_solver. lia.
  - intros x Hx. assert (x ≠ ij) by (by intros ->).
    assert (x ∉ acc.1) by (by apply Hfresh, list_elem_of_further).
    destruct acc as [nc k]. unfold neighbour_step.
    repeat (destruct (_ : bool); simpl in *); set_solver.
Qed.

Lemma new_sentence_counts st c :
  agrees g st → counts (new_sentence st c (Minesweeper.nearby_mines g c)).
Proof.
  intros Ha. unfold new_sentence, counts.
  pose proof (neighbour_fold (around c) st c (∅, Minesweeper.nearby_mines g c) 0%Z
                Ha (NoDup_around c)) as Hfold.
  specialize (Hfold ltac:(intros x _; apply not_elem_of_empty)).
  cbv zeta in Hfold. fold (Minesweeper.nearby_mines g c) in Hfold.
  destruct (foldl (neighbour_step st c) _ _) as [nc k].
  cbn [fst snd] in Hfold.
  assert (∅ ∩ M = (∅ : gset cell)) as Hempty by set_solver.
  rewrite Hempty, size_empty in Hfold.
  cbn [Sentence.new Sentence.cells Sentence.count]. lia.
Qed.

Lemma agrees_record_move c st :
  c ∉ M → agrees g st → agrees g (record_move c (Minesweeper.nearby_mines g c) st).
Proof.
  intros HM Ha. unfold record_move.
  set (st1 := AI _ _ _ _ _ _).
  assert (agrees g st1) as Ha1 by done.
  apply (agrees_mark_safe c) in Ha1; [|done].
  set (st2 := mark_safe c st1) in *.
  pose proof (new_sentence_counts st2 c Ha1) as Hnew.
  set (new := new_sentence st2 c _) in *.
  assert (agrees g (set_knowledge (knowledge st2 ++ [new]) st2)) as Ha3.
  { destruct Ha1 as (Hh & Hw & Hm & Hs & Hk).
    unfold agrees; simpl; split_and!; [done | done | done | done |].
    intros s [Hin| ->%list_elem_of_singleton]%elem_of_app; [by apply Hk | done]. }
  assert (∀ st3, agrees g st3 →
            agrees g (set_knowledge (Sentence.discard c <$> knowledge st3) st3)) as Hd.
  { intros st3 (Hh & Hw & Hm & Hs & Hk).
    unfold agrees; simpl; split_and!; [done | done | done | done |].
    intros s' (s & -> & Hin)%list_elem_of_fmap.
    apply counts_discard; [done | by apply Hk]. }
  destruct (contains new (knowledge st2)); by apply Hd.
Qed.

Lemma agrees_add_knowledge c st :
  c ∉ M → agrees g st →
  agrees g (state_of (add_knowledge c (Minesweeper.nearby_mines g c) st)).
Proof.
  intros HM Ha. rewrite state_of_add_knowledge. cbv zeta.
  assert (agrees g (simplify (record_move c (Minesweeper.nearby_mines g c) st)))
    by by apply agrees_simplify, agrees_record_move.
  destruct (hits_mine _); [done|].
  by apply agrees_simplify, agrees_resolution.
Qed.

Lemma agrees_reachable_on st : reachable_on g st → agrees g st.
Proof.
  induction 1 as [|st c _ IH Hc|st c _ IH Hc|st c _ IH Hc].
  - unfold agrees; simpl; split_and!; [done | done | set_solver | set_solver |].
    intros s Hs. by apply elem_of_nil in Hs.
  - apply agrees_add_knowledge; [|done].
    by apply bool_decide_eq_false_1 in Hc.
  - apply agrees_mark_mine; [|done]. by apply bool_decide_eq_true_1 in Hc.
  - apply agrees_mark_safe; [|done]. by apply bool_decide_eq_false_1 in Hc.
Qed.

End agreement.

(** ** Calls that do not contradict the known facts *)
Section guarded.
Import MinesweeperAI.
Implicit Types (st : MinesweeperAI.t) (s : Sentence.t) (c : cell).

Lemma reachable_guarded_reachable st : reachable_guarded st → reachable st.
Proof. induction 1; by constructor. Qed.

Lemma purged_mark_mines l st : purged st → purged (mark_mines l st).
Proof. intros Hp. apply mark_mines_ind; [|done]. intros. by apply purged_mark_mine. Qed.

Lemma purged_mark_safes l st : purged st → purged (mark_safes l st).
Proof. intros Hp. apply mark_safes_ind; [|done]. intros. by apply purged_mark_safe. Qed.

(** The pass marks cells of sentences only, and a sentence of a purged
    state mentions no known cell. *)
Lemma disjoint_mark_mines st s :
  purged st → safes st ## mines st → s ∈ knowledge st →
  safes (mark_mines (elements (Sentence.cells s)) st)
  ## mines (mark_mines (elements (Sentence.cells s)) st).
Proof.
  intros Hp Hd Hs. specialize (Hp s Hs).
  destruct (mark_mines_ind (λ st', safes st' = safes st
                                   ∧ mines st' ⊆ mines st ∪ Sentence.cells s)
                           (elements (Sentence.cells s)) st) as [He Hm].
  - intros c st' Hc%elem_of_elements [He Hm]. simpl. set_solver.
  - set_solver.
  - rewrite He. set_solver.
Qed.

Lemma disjoint_mark_safes st s :
  purged st → safes st ## mines st → s ∈ knowledge st →
  safes (mark_safes (elements (Sentence.cells s)) st)
  ## mines (mark_safes (elements (Sentence.cells s)) st).
Proof.
  intros Hp Hd Hs. specialize (Hp s Hs).
  destruct (mark_safes_ind (λ st', mines st' = mines st
                                   ∧ safes st' ⊆ safes st ∪ Sentence.cells s)
                           (elements (Sentence.cells s)) st) as [He Hm].
  - intros c st' Hc%elem_of_elements [He Hm]. simpl. set_solver.
  - set_solver.
  - rewrite He. set_solver.
Qed.

Lemma disjoint_add_knowledge c n st :
  purged st → safes st ## mines st → c ∉ mines st →
  safes (state_of (add_knowledge c n st)) ## mines (state_of (add_knowledge c n st)).
Proof.
  intros Hp Hd Hc.
  apply (add_knowledge_ind (λ st', purged st' ∧ safes st' ## mines st')).
  - intros st' s [Hp' Hd'] Hs _ _. split;
      [by apply purged_mark_mines | by apply disjoint_mark_mines].
  - intros st' s [Hp' Hd'] Hs _. split;
      [by apply purged_mark_safes | by apply disjoint_mark_safes].
  - intros st' k [Hp' Hd'] Hk. split; [by apply purged_set_knowledge | done].
  - intros st' [Hp' Hd']. split; [by apply purged_resolution | done].
  - split; [by apply purged_record_move|].
    unfold record_move. destruct (contains _ _); simpl; set_solver.
Qed.

Lemma disjoint_reachable_guarded st : reachable_guarded st → safes st ## mines st.
Proof.
  induction 1 as [h w|st c n Hr IH Hc|st c Hr IH Hc|st c Hr IH Hc].
  - set_solver.
  - apply disjoint_add_knowledge; [|done..].
    by apply purged_reachable, reachable_guarded_reachable.
  - simpl. set_solver.
  - simpl. set_solver.
Qed.

(** The revealed cell is in [safes] when [add_knowledge] is left. *)
Lemma revealed_is_safe c n st : c ∈ safes (state_of (add_knowledge c n st)).
Proof.
  apply (add_knowledge_ind (λ st', c ∈ safes st')).
  - intros st' s Hs _ _ _. apply mark_mines_ind; [|done]. by intros.
  - intros st' s Hs _ _. apply mark_safes_ind; [|done]. intros. simpl. set_solver.
  - by intros.
  - by intros.
  - unfold record_move. destruct (contains _ _); simpl; set_solver.
Qed.

(** A call that contradicts a known fact puts its cell in both sets, and
    the sets only grow: a state with disjoint sets was reached without
    such a call. *)
Lemma reachable_disjoint_guarded st :
  reachable st → safes st ## mines st → reachable_guarded st.
Proof.
  induction 1 as [h w|st c n Hr IH|st c Hr IH|st c Hr IH]; intros Hd.
  - constructor.
  - destruct (grows_add_knowledge st c n) as (_ & Hs & Hm).
    pose proof (revealed_is_safe c n st) as Hc.
    constructor; [apply IH|]; set_solver.
  - simpl in Hd. constructor; [apply IH|]; set_solver.
  - simpl in Hd. constructor; [apply IH|]; set_solver.
Qed.

Lemma reachable_on_guarded g st :
  on_board g → reachable_on g st → reachable_guarded st.
Proof.
  intros Hg. induction 1 as [|st c Hr IH Hc|st c Hr IH Hc|st c Hr IH Hc].
  - constructor.
  - destruct (agrees_reachable_on g Hg st Hr) as (_ & _ & Hm & Hs & _).
    constructor; [done|]. apply bool_decide_eq_false_1 in Hc. set_solver.
  - destruct (agrees_reachable_on g Hg st Hr) as (_ & _ & Hm & Hs & _).
    constructor; [done|]. apply bool_decide_eq_true_1 in Hc. set_solver.
  - destruct (agrees_reachable_on g Hg st Hr) as (_ & _ & Hm & Hs & _).
    constructor; [done|]. apply bool_decide_eq_false_1 in Hc. set_solver.
Qed.

End guarded.

(** * The claims *)

Import MinesweeperAI.

Lemma reachable_on_reachable g st : reachable_on g st → reachable st.
Proof.
  induction 1; [apply reach_init | by apply reach_add_knowledge
               | by apply reach_mark_mine | by apply reach_mark_safe].
Qed.

Lemma on_board_game_a : on_board game_a.
Proof.
  intros c Hc. assert (c = (1, 1)%Z ∨ c = (1, 3)%Z) as [-> | ->]
    by (simpl in Hc; set_solver); reflexivity.
Qed.

Lemma reachable_on_state_a : reachable_on game_a state_a.
Proof.
  unfold state_a, play.
  apply play_add_knowledge; [apply play_add_knowledge; [apply play_init|]|]; reflexivity.
Defined.

(** What the two queries leave behind, in closed form. *)
Lemma sentence_len_0 s : Sentence.len s = 0%Z ↔ Sentence.cells s = ∅.
Proof.
  unfold Sentence.len. split.
  - intros H. apply leibniz_equiv, size_empty_iff. lia.
  - intros ->. by rewrite size_empty.
Qed.

Lemma known_mines_closed s :
  (Sentence.known_mines s).1
  = if bool_decide (Sentence.len s = Sentence.count s)
    then Sentence.Sentence ∅ 0 (Sentence.cells s ∪ Sentence.known_mine_set s)
                           (Sentence.known_safe_set s)
    else s.
Proof.
  unfold Sentence.known_mines. simpl. case_bool_decide as Heq; [|done].
  destruct (sentence_mark_mines (elements (Sentence.cells s)) s) as (Hc & Hn & Hm & Hs).
  rewrite list_to_set_elements_L in Hc, Hn, Hm.
  destruct (foldl _ _ _) as [cs n km ks]. simpl in *. subst. f_equal.
  - set_solver.
  - unfold Sentence.len in Heq.
    assert (Sentence.cells s ∩ Sentence.cells s = Sentence.cells s) as -> by set_solver.
    lia.
  - set_solver.
Qed.

Lemma known_safes_closed s :
  (Sentence.known_safes s).1
  = if bool_decide (Sentence.count s = 0%Z)
    then Sentence.Sentence ∅ 0 (Sentence.known_mine_set s)
                           (Sentence.cells s ∪ Sentence.known_safe_set s)
    else s.
Proof.
  unfold Sentence.known_safes. simpl. case_bool_decide as Heq; [|done].
  destruct (sentence_mark_safes (elements (Sentence.cells s)) s) as (Hc & Hn & Hm & Hs).
  rewrite list_to_set_elements_L in Hc, Hs.
  destruct (foldl _ _ _) as [cs n km ks]. simpl in *. subst. f_equal.
  - set_solver.
  - done.
  - set_solver.
Qed.

(** C1 (as amended).  [known_mines] leaves the sentence as it is when
    [len(cells) != count]; when [len(cells) == count] it moves every cell to
    [known_mine_set], leaving no cell and count 0.  [known_safes] leaves the
    sentence as it is when [count != 0]; when [count == 0] it moves every
    cell to [known_safe_set], leaving no cell.  Each returns the
    accumulated set of the updated sentence.  Hence [known_mines] leaves
    the sentence unchanged exactly when [len(cells) != count] or the cell
    set is empty, and [known_safes] exactly when [count != 0] or the cell
    set is empty; for both, the cell set and the count are unchanged
    exactly when the whole sentence is. *)
Theorem known_queries_effect (s : Sentence.t) :
  (Sentence.len s ≠ Sentence.count s → (Sentence.known_mines s).1 = s)
  ∧ (Sentence.len s = Sentence.count s →
     (Sentence.known_mines s).1
     = Sentence.Sentence ∅ 0 (Sentence.cells s ∪ Sentence.known_mine_set s)
                         (Sentence.known_safe_set s))
  ∧ (Sentence.count s ≠ 0%Z → (Sentence.known_safes s).1 = s)
  ∧ (Sentence.count s = 0%Z →
     (Sentence.known_safes s).1
     = Sentence.Sentence ∅ 0 (Sentence.known_mine_set s)
                         (Sentence.cells s ∪ Sentence.known_safe_set s))
  ∧ (Sentence.known_mines s).2 = Sentence.known_mine_set (Sentence.known_mines s).1
  ∧ (Sentence.known_safes s).2 = Sentence.known_safe_set (Sentence.known_safes s).1
  ∧ ((Sentence.known_mines s).1 = s
     ↔ Sentence.len s ≠ Sentence.count s ∨ Sentence.cells s = ∅)
  ∧ ((Sentence.known_safes s).1 = s
     ↔ Sentence.count s ≠ 0%Z ∨ Sentence.cells s = ∅)
  ∧ (view (Sentence.known_mines s).1 = view s ↔ (Sentence.known_mines s).1 = s)
  ∧ (view (Sentence.known_safes s).1 = view s ↔ (Sentence.known_safes s).1 = s).
Proof.
  assert (view (Sentence.known_mines s).1 = view s
          → Sentence.len s ≠ Sentence.count s ∨ Sentence.cells s = ∅) as Hm1.
  { rewrite known_mines_closed. case_bool_decide as Heq; [|by left].
    unfold view. simpl. intros [= <- _]. by right. }
  assert (Sentence.len s ≠ Sentence.count s ∨ Sentence.cells s = ∅
          → (Sentence.known_mines s).1 = s) as Hm2.
  { rewrite known_mines_closed. case_bool_decide as Heq; [|done].
    intros [?|He]; [done|]. pose proof (proj2 (sentence_len_0 s) He) as Hl.
    destruct s as [cs n km ks]. simpl in *. subst cs. f_equal; [lia | set_solver]. }
  assert (view (Sentence.known_safes s).1 = view s
          → Sentence.count s ≠ 0%Z ∨ Sentence.cells s = ∅) as Hs1.
  { rewrite known_safes_closed. case_bool_decide as Heq; [|by left].
    unfold view. simpl. intros [= <- _]. by right. }
  assert (Sentence.count s ≠ 0%Z ∨ Sentence.cells s = ∅
          → (Sentence.known_safes s).1 = s) as Hs2.
  { rewrite known_safes_closed. case_bool_decide as Heq; [|done].
    intros [?|He]; [done|].
    destruct s as [cs n km ks]. simpl in *. subst cs. f_equal; [done | set_solver]. }
  split_and!.
  - intros Hne. rewrite known_mines_closed. by rewrite bool_decide_eq_false_2.
  - intros Heq. rewrite known_mines_closed. by rewrite bool_decide_eq_true_2.
  - intros Hne. rewrite known_safes_closed. by rewrite bool_decide_eq_false_2.
  - intros Heq. rewrite known_safes_closed. by rewrite bool_decide_eq_true_2.
  - done.
  - done.
  - split; [|done]. intros H. apply Hm1. by rewrite H.
  - split; [|done]. intros H. apply Hs1. by rewrite H.
  - split; [by intros H%Hm1%Hm2 | by intros ->].
  - split; [by intros H%Hs1%Hs2 | by intros ->].
Qed.

Lemma known_queries_effect_witness :
  (Sentence.known_mines (Sentence.new {[ (0, 0)%Z; (0, 1)%Z ]} 2)).1
  = Sentence.Sentence ∅ 0 ({[ (0, 0)%Z; (0, 1)%Z ]} ∪ ∅) ∅
  ∧ (Sentence.known_mines (Sentence.new {[ (0, 0)%Z; (0, 1)%Z ]} 1)).1
    = Sentence.new {[ (0, 0)%Z; (0, 1)%Z ]} 1
  ∧ (Sentence.known_mines (Sentence.new ∅ 0)).1 = Sentence.new ∅ 0
  ∧ (Sentence.known_safes (Sentence.new ∅ 0)).1 = Sentence.new ∅ 0.
Proof.
  split_and!.
  - refine (proj1 (proj2 (known_queries_effect
                            (Sentence.new {[ (0, 0)%Z; (0, 1)%Z ]} 2))) _).
    vm_compute. reflexivity.
  - refine (proj1 (known_queries_effect (Sentence.new {[ (0, 0)%Z; (0, 1)%Z ]} 1)) _).
    vm_compute. discriminate.
  - destruct (known_queries_effect (Sentence.new ∅ 0))
      as (_ & _ & _ & _ & _ & _ & [_ Hm] & _).
    apply Hm. right. reflexivity.
  - destruct (known_queries_effect (Sentence.new ∅ 0))
      as (_ & _ & _ & _ & _ & _ & _ & [_ Hs] & _).
    apply Hs. right. reflexivity.
Defined.

(** C1 (as stated) fails: on the sentence [{(0,0)} = 1], [known_mines]
    empties the cell set and sets the count to 0; on [{(0,0)} = 0],
    [known_safes] empties the cell set. *)
Lemma known_queries_mutate :
  let s1 := Sentence.new {[ (0, 0)%Z ]} 1 in
  let s0 := Sentence.new {[ (0, 0)%Z ]} 0 in
  (Sentence.known_mines s1).1 = Sentence.Sentence ∅ 0 {[ (0, 0)%Z ]} ∅
  ∧ Sentence.cells (Sentence.known_mines s1).1 ≠ Sentence.cells s1
  ∧ Sentence.count (Sentence.known_mines s1).1 ≠ Sentence.count s1
  ∧ (Sentence.known_safes s0).1 = Sentence.Sentence ∅ 0 ∅ {[ (0, 0)%Z ]}
  ∧ Sentence.cells (Sentence.known_safes s0).1 ≠ Sentence.cells s0.
Proof.
  cbv zeta. split_and!.
  - vm_compute. reflexivity.
  - intros Heq. vm_compute in Heq. discriminate Heq.
  - vm_compute. discriminate.
  - vm_compute. reflexivity.
  - intros Heq. vm_compute in Heq. discriminate Heq.
Qed.

Lemma scan_step_not_trivial st tr i :
  (∀ s, knowledge st !! i = Some s → ¬ trivial s) → scan_step (st, tr) i = (st, tr).
Proof.
  intros Hnt. unfold scan_step. destruct (knowledge st !! i) as [s|] eqn:Hs; [|done].
  specialize (Hnt s eq_refl). unfold trivial in Hnt.
  pose proof (Nat2Z.is_nonneg (size (Sentence.cells s))) as Hlen.
  fold (Sentence.len s) in Hlen.
  rewrite (bool_decide_eq_false_2 (Sentence.len s = 0%Z)) by tauto.
  assert (Sentence.count s ≠ 0%Z) as Hz by (intros Hz; apply Hnt; right; left; tauto).
  rewrite (bool_decide_eq_false_2 (Sentence.count s = 0%Z)) by done.
  rewrite (bool_decide_eq_false_2 (Sentence.len s = Sentence.count s)).
  - simpl. rewrite Hs. by rewrite (bool_decide_eq_false_2 (Sentence.count s = 0%Z)).
  - intros Heq. apply Hnt. right; right. lia.
Qed.

Lemma scan_settled st : settled st → scan st = (st, []).
Proof.
  intros Hst. unfold scan. generalize (seq 0 (length (knowledge st))) as idx.
  induction idx as [|i idx IH]; [done|].
  change (foldl scan_step (scan_step (st, []) i) idx = (st, [])).
  rewrite scan_step_not_trivial; [done|].
  intros s Hs. by eapply Hst, list_elem_of_lookup_2.
Qed.

(** The first loop keeps the length of [self.knowledge] and only appends
    positions of that list to [sentences_to_remove]. *)
Lemma mark_mines_length l st : length (knowledge (mark_mines l st)) = length (knowledge st).
Proof.
  apply (mark_mines_ind (λ st', length (knowledge st') = length (knowledge st))); [|done].
  intros c st' _ <-. simpl. apply length_fmap.
Qed.

Lemma mark_safes_length l st : length (knowledge (mark_safes l st)) = length (knowledge st).
Proof.
  apply (mark_safes_ind (λ st', length (knowledge st') = length (knowledge st))); [|done].
  intros c st' _ <-. simpl. apply length_fmap.
Qed.

Lemma scan_step_shape st tr i :
  ∃ st1 tr', scan_step (st, tr) i = (st1, tr ++ tr')
             ∧ length (knowledge st1) = length (knowledge st)
             ∧ Forall (λ j, j < length (knowledge st)) tr'.
Proof.
  unfold scan_step. destruct (knowledge st !! i) as [s|] eqn:Hs.
  2:{ exists st, []. by rewrite app_nil_r. }
  assert (i < length (knowledge st)) as Hi by (by eapply lookup_lt_Some).
  case_bool_decide as Hlen.
  { exists st, [i]. split_and!; [done | done | by apply Forall_singleton]. }
  destruct (_ && _).
  - destruct (knowledge (mark_mines _ st) !! i) as [s1|] eqn:Hs1.
    + case_bool_decide.
      * eexists _, [i; i]. rewrite <- app_assoc. simpl.
        rewrite mark_safes_length, mark_mines_length.
        split_and!; [done | done | by repeat constructor].
      * eexists _, [i]. rewrite mark_mines_length.
        split_and!; [done | done | by apply Forall_singleton].
    + eexists _, [i]. rewrite mark_mines_length.
      split_and!; [done | done | by apply Forall_singleton].
  - rewrite Hs. case_bool_decide.
    + eexists _, [i]. rewrite mark_safes_length.
      split_and!; [done | done | by apply Forall_singleton].
    + exists st, []. by rewrite app_nil_r.
Qed.

Lemma scan_fold_shape idx : ∀ st tr,
  ∃ st' tr', foldl scan_step (st, tr) idx = (st', tr ++ tr')
             ∧ length (knowledge st') = length (knowledge st)
             ∧ Forall (λ j, j < length (knowledge st)) tr'.
Proof.
  induction idx as [|i idx IH]; intros st tr.
  { exists st, []. by rewrite app_nil_r. }
  change (foldl scan_step (st, tr) (i :: idx))
    with (foldl scan_step (scan_step (st, tr) i) idx).
  destruct (scan_step_shape st tr i) as (st1 & tr1 & -> & Hlen & Hall).
  destruct (IH st1 (tr ++ tr1)) as (st2 & tr2 & -> & Hlen2 & Hall2).
  exists st2, (tr1 ++ tr2). rewrite app_assoc, Hlen2, Hlen.
  split_and!; [done | done |]. apply Forall_app. split; [done|].
  by rewrite Hlen in Hall2.
Qed.

(** Every reference collected by the first loop still points into
    [self.knowledge] when the second loop reads it. *)
Lemma scan_references_valid st :
  Forall (λ j, is_Some (knowledge (scan st).1 !! j)) (scan st).2.
Proof.
  unfold scan.
  destruct (scan_fold_shape (seq 0 (length (knowledge st))) st [])
    as (st1 & tr & -> & Hlen & Hall).
  simpl. eapply Forall_impl; [apply Hall|].
  intros j Hj. apply lookup_lt_is_Some_2. by rewrite Hlen.
Qed.

(** A trivial sentence makes the first loop record something to remove. *)
Lemma scan_step_trivial st tr i s :
  knowledge st !! i = Some s → trivial s → (scan_step (st, tr) i).2 ≠ [].
Proof.
  assert (∀ l : list nat, l ++ [i] ≠ []) as Hsnoc
    by (intros l [_ Hnil]%app_eq_nil; discriminate Hnil).
  intros Hs Ht. unfold scan_step. rewrite Hs.
  destruct (bool_decide (Sentence.len s = 0%Z)) eqn:Hlen; [apply Hsnoc|].
  destruct (bool_decide (Sentence.len s = Sentence.count s)
            && negb (bool_decide (Sentence.count s = 0%Z))) eqn:Hm.
  - destruct (knowledge (mark_mines _ st) !! i) as [s1|]; [|apply Hsnoc].
    destruct (bool_decide (Sentence.count s1 = 0%Z)); apply Hsnoc.
  - rewrite Hs.
    assert (Sentence.count s = 0%Z) as Hz.
    { apply bool_decide_eq_false_1 in Hlen.
      destruct Ht as [?|[[? _]|[Heq Hpos]]]; [done | done |].
      apply andb_false_iff in Hm as [Hm|Hm].
      - apply bool_decide_eq_false_1 in Hm. congruence.
      - apply negb_false_iff, bool_decide_eq_true_1 in Hm. lia. }
    rewrite (bool_decide_eq_true_2 _ Hz). apply Hsnoc.
Qed.

Lemma scan_fold_trivial idx : ∀ st tr i s,
  i ∈ idx → knowledge st !! i = Some s → trivial s →
  (foldl scan_step (st, tr) idx).2 ≠ [].
Proof.
  induction idx as [|j idx IH]; intros st tr i s Hi Hs Ht.
  { by apply elem_of_nil in Hi. }
  change (foldl scan_step (st, tr) (j :: idx))
    with (foldl scan_step (scan_step (st, tr) j) idx).
  destruct (knowledge st !! j) as [sj|] eqn:Hsj.
  - destruct (decide (trivial sj)) as [Htj|Htj].
    + pose proof (scan_step_trivial st tr j sj Hsj Htj) as Hne.
      destruct (scan_step (st, tr) j) as [st1 tr1]. simpl in Hne.
      destruct (scan_fold_shape idx st1 tr1) as (st2 & tr2 & -> & _). by destruct tr1.
    + rewrite scan_step_not_trivial by (intros s' Hs'; congruence).
      apply (IH st tr i s); [|done|done].
      apply elem_of_cons in Hi as [->|Hi]; [congruence | done].
  - rewrite scan_step_not_trivial by (intros s' Hs'; congruence).
    apply (IH st tr i s); [|done|done].
    apply elem_of_cons in Hi as [->|Hi]; [congruence | done].
Qed.

(** The second loop then makes the list shorter. *)
Lemma sentence_eq_refl s : Sentence.eq s s = true.
Proof. unfold Sentence.eq. by rewrite !bool_decide_eq_true_2. Qed.

Lemma contains_elem_of s k : s ∈ k → contains s k = true.
Proof.
  intros Hs. unfold contains. apply existsb_exists. exists s.
  split; [by apply list_elem_of_In | apply sentence_eq_refl].
Qed.

Lemma list_remove_length s k :
  contains s k = true → S (length (list_remove s k)) = length k.
Proof.
  unfold contains. induction k as [|x k IH]; simpl; [done|].
  destruct (Sentence.eq x s); simpl; [done|]. intros Hc. by rewrite IH.
Qed.

Lemma remove_all_length rs : ∀ k, length (remove_all rs k) ≤ length k.
Proof.
  unfold remove_all. induction rs as [|r rs IH]; intros k; simpl; [done|].
  etrans; [apply IH|]. unfold remove_step. destruct (contains r k) eqn:Hc; [|done].
  apply list_remove_length in Hc. lia.
Qed.

Lemma remove_all_shrinks r rs k :
  r ∈ k → length (remove_all (r :: rs) k) < length k.
Proof.
  intros Hr. unfold remove_all. simpl. unfold remove_step at 2.
  rewrite contains_elem_of by done.
  pose proof (list_remove_length r k (contains_elem_of r k Hr)).
  pose proof (remove_all_length rs (list_remove r k)). unfold remove_all in *. lia.
Qed.

Lemma simplify_trivial st s :
  s ∈ knowledge st → trivial s →
  length (knowledge (simplify st)) < length (knowledge st).
Proof.
  intros Hs Ht. apply list_elem_of_lookup in Hs as [i Hi].
  assert (i ∈ seq 0 (length (knowledge st))) as Hidx
    by (apply elem_of_seq; apply lookup_lt_Some in Hi; lia).
  pose proof (scan_fold_trivial _ st [] i s Hidx Hi Ht) as Hne.
  destruct (scan_fold_shape (seq 0 (length (knowledge st))) st [])
    as (st1 & tr & Htr & Hlen & Hall).
  unfold simplify, scan. rewrite Htr in Hne |- *.
  simpl in *. destruct tr as [|j tr]; [done|].
  apply Forall_cons in Hall as [Hj _]. rewrite <- Hlen in Hj.
  apply lookup_lt_is_Some_2 in Hj as [r Hr]. simpl. rewrite Hr. simpl.
  rewrite <- Hlen. apply remove_all_shrinks. by eapply list_elem_of_lookup_2.
Qed.

Lemma mine_free_hits_mine st : mine_free st ↔ hits_mine st = false.
Proof.
  unfold mine_free, hits_mine. split.
  - intros Hp. apply not_true_is_false. intros Hex.
    apply existsb_exists in Hex as (s & Hs & Hex).
    apply existsb_exists in Hex as (x & Hx & Hm).
    apply list_elem_of_In in Hs, Hx. apply elem_of_elements in Hx.
    apply bool_decide_eq_true_1 in Hm. specialize (Hp s Hs). set_solver.
  - intros Hex s Hs. apply elem_of_disjoint. intros x Hx Hm.
    apply not_true_iff_false in Hex. apply Hex.
    apply existsb_exists. exists s. split; [by apply list_elem_of_In|].
    apply existsb_exists. exists x. split.
    + by apply list_elem_of_In, elem_of_elements.
    + by apply bool_decide_eq_true_2.
Qed.

(** C2.  [add_knowledge] runs the pass twice and each pass visits every
    sentence once, so it can return before a fixpoint is reached: in the
    game [game_a], after (0,3) and (0,0) were revealed,
    [add_knowledge((0,1), 1)] returns normally with the sentence
    [{(1,3)} = 1], whose count equals its number of cells, in the knowledge
    base and with no known mine, although step 4 of its docstring has it
    mark every cell that can be concluded to be a mine; one more pass marks
    (1,3) as a mine and changes the state. *)
Theorem pass_not_fixpoint :
  let st' := play game_a (0, 1)%Z state_a in
  reachable_on game_a state_a
  ∧ add_knowledge (0, 1)%Z (Minesweeper.nearby_mines game_a (0, 1)%Z) state_a = Ok st'
  ∧ view <$> knowledge st'
    = [ ({[ (1, 3)%Z ]}, 1%Z);
        ({[ (1, 0)%Z; (1, 1)%Z ]}, 1%Z);
        ({[ (1, 0)%Z; (1, 1)%Z ]}, 1%Z) ]
  ∧ (∃ s, s ∈ knowledge st' ∧ trivial s)
  ∧ mines st' = ∅
  ∧ mines (state_of (mark_sels_as_mine_or_safe st')) = {[ (1, 3)%Z ]}
  ∧ mark_sels_as_mine_or_safe st' ≠ Ok st'.
Proof.
  cbv zeta. split_and!.
  - apply reachable_on_state_a.
  - vm_compute. reflexivity.
  - vm_compute. reflexivity.
  - exists (Sentence.Sentence {[ (1, 3)%Z ]} 1 ∅ {[ (0, 2)%Z; (1, 2)%Z ]}). split.
    + apply (list_elem_of_lookup_2 _ 0). vm_compute. reflexivity.
    + right; right. split; vm_compute; reflexivity.
  - vm_compute. reflexivity.
  - vm_compute. reflexivity.
  - intros Heq. apply (f_equal (λ r, length (knowledge (state_of r)))) in Heq.
    vm_compute in Heq. discriminate Heq.
Qed.

(** The derived sentences of the resolution step: every pair of sentences
    of the knowledge base with strictly included cell sets contributes the
    sentence over the set difference with the count difference. *)
Lemma resolution_derives st s s' :
  s ∈ knowledge st → s' ∈ knowledge st →
  Sentence.cells s ⊂ Sentence.cells s' →
  Sentence.new (Sentence.cells s' ∖ Sentence.cells s)
               (Sentence.count s' - Sentence.count s)
  ∈ knowledge (resolution st).
Proof.
  intros Hs Hs' Hsub. simpl. apply elem_of_app. right.
  unfold new_sentences. apply list_elem_of_bind. exists s. split; [|done].
  apply list_elem_of_bind. exists s'. split; [|done].
  unfold resolve_pair, Sentence.eq.
  pose proof (subset_size _ _ Hsub) as Hsize.
  rewrite (bool_decide_eq_false_2 (Sentence.cells s = Sentence.cells s'))
    by (intros Heq; rewrite Heq in Hsize; lia).
  rewrite (bool_decide_eq_false_2 (Sentence.len s = Sentence.len s'))
    by (unfold Sentence.len; lia).
  rewrite (bool_decide_eq_true_2 (Sentence.cells s ⊆ Sentence.cells s'))
    by (by apply Hsub).
  apply list_elem_of_here.
Qed.

(** C3.  In the game [game_b], after (0,0) was revealed,
    [add_knowledge((0,1), 2)] derives the sentence [{(0,2),(1,2)} = 1]
    twice, once for each order of the pair it comes from, and appends both
    copies.  The next call, [add_knowledge((0,3), 1)], derives it twice
    more, and four times [{(1,0),(1,1)} = 1], although both are in the
    knowledge base already; all are appended. *)
Theorem resolution_appends_duplicates :
  let st1 := simplify (record_move (0, 1)%Z 2 state_b) in
  let st2 := simplify (record_move (0, 3)%Z 1 state_b') in
  let a := ({[ (1, 0)%Z; (1, 1)%Z ]} : gset cell, 1%Z) in
  let b := ({[ (0, 2)%Z; (1, 0)%Z; (1, 1)%Z; (1, 2)%Z ]} : gset cell, 2%Z) in
  let d := ({[ (0, 2)%Z; (1, 2)%Z ]} : gset cell, 1%Z) in
  let f := ({[ (0, 2)%Z; (1, 2)%Z; (1, 3)%Z ]} : gset cell, 1%Z) in
  let e := ({[ (1, 3)%Z ]} : gset cell, 0%Z) in
  Minesweeper.nearby_mines game_b (0, 1)%Z = 2%Z
  ∧ Minesweeper.nearby_mines game_b (0, 3)%Z = 1%Z
  ∧ view <$> knowledge st1 = [a; b]
  ∧ view <$> new_sentences (knowledge st1) = [d; d]
  ∧ add_knowledge (0, 1)%Z 2 state_b = Ok state_b'
  ∧ view <$> knowledge state_b' = [a; b; d; d]
  ∧ view <$> knowledge st2 = [a; b; d; d; f]
  ∧ view <$> new_sentences (knowledge st2) = [d; d; a; a; a; e; a; e; e; e]
  ∧ contains (Sentence.new d.1 d.2) (knowledge st2) = true
  ∧ view <$> knowledge (state_of (add_knowledge (0, 3)%Z 1 state_b'))
    = [a; b; d; d; d; d; d; a; a; a; a].
Proof. cbv zeta. split_and!; vm_compute; reflexivity. Qed.

(** C4 (as amended).  A state reached from a fresh object by calls of
    [add_knowledge], [mark_mine] and [mark_safe] with any cells and counts
    has [safes] and [mines] disjoint exactly when it is reached by calls
    none of which reveals or marks as safe a cell that is in [mines] at the
    time, or marks as a mine a cell that is in [safes] at the time.  Every
    state reached when the object is driven by a game whose mines lie on
    the board is of this kind. *)
Theorem safes_mines_disjoint st :
  (reachable_guarded st ↔ reachable st ∧ safes st ∩ mines st = ∅)
  ∧ (∀ g, on_board g → reachable_on g st → reachable_guarded st).
Proof.
  split; [split|].
  - intros Hr. split; [by apply reachable_guarded_reachable|].
    apply disjoint_reachable_guarded in Hr. set_solver.
  - intros [Hr Hd]. apply reachable_disjoint_guarded; [done | set_solver].
  - intros g. apply reachable_on_guarded.
Qed.

Lemma safes_mines_disjoint_witness :
  mines state_m = {[ (0, 1)%Z ]} ∧ safes state_m ∩ mines state_m = ∅.
Proof.
  split; [vm_compute; reflexivity|].
  refine (proj2 (proj1 (proj1 (safes_mines_disjoint state_m)) _)).
  unfold state_m. apply guarded_add_knowledge; [apply guarded_init|].
  vm_compute. set_solver.
Defined.

(** C4 (as stated) fails: [mark_mine((0,0))] followed by
    [mark_safe((0,0))] puts (0,0) in both sets; so does
    [add_knowledge((0,0), 1)] followed by [add_knowledge((0,1), 0)] on a
    1x2 board. *)
Lemma safes_mines_overlap :
  let st := mark_safe (0, 0)%Z (mark_mine (0, 0)%Z (init 8 8)) in
  let st' := state_of (add_knowledge (0, 1)%Z 0
                         (state_of (add_knowledge (0, 0)%Z 1 (init 1 2)))) in
  reachable st ∧ safes st ∩ mines st = {[ (0, 0)%Z ]}
  ∧ reachable st' ∧ safes st' ∩ mines st' = {[ (0, 1)%Z ]}
  ∧ safes st ∩ mines st ≠ ∅.
Proof.
  cbv zeta. split_and!.
  - apply reach_mark_safe, reach_mark_mine, reach_init.
  - vm_compute. reflexivity.
  - apply reach_add_knowledge, reach_add_knowledge, reach_init.
  - vm_compute. reflexivity.
  - intros Heq. vm_compute in Heq. discriminate Heq.
Qed.

(** C5 (as amended).  When the object is driven by a game whose mines lie
    on the board, every sentence of the knowledge base satisfies
    [0 <= count <= len(cells)]. *)
Theorem sentence_count_in_range g st s :
  on_board g → reachable_on g st → s ∈ knowledge st → count_in_range s.
Proof.
  intros Hg Hr Hs. destruct (agrees_reachable_on g Hg st Hr) as (_ & _ & _ & _ & Hk).
  specialize (Hk s Hs). unfold counts in Hk. unfold count_in_range, Sentence.len.
  assert (size (Sentence.cells s ∩ Minesweeper.mines g) ≤ size (Sentence.cells s))
    by (apply subseteq_size; set_solver).
  lia.
Qed.

Lemma sentence_count_in_range_witness :
  count_in_range (Sentence.Sentence {[ (0, 1)%Z; (1, 0)%Z; (1, 1)%Z ]} 1 ∅ ∅).
Proof.
  apply (sentence_count_in_range game_a state_a).
  - apply on_board_game_a.
  - apply reachable_on_state_a.
  - apply (list_elem_of_lookup_2 _ 1). vm_compute. reflexivity.
Defined.

(** C5 (as stated) fails: on a 1x5 board, [add_knowledge((0,1), 2)]
    followed by [add_knowledge((0,3), 0)] leaves the sentence
    [{(0,4)} = -1]. *)
Lemma negative_count_reachable :
  let st := state_of (add_knowledge (0, 3)%Z 0
                        (state_of (add_knowledge (0, 1)%Z 2 (init 1 5)))) in
  reachable st
  ∧ view <$> knowledge st = [ ({[ (0, 4)%Z ]}, (-1)%Z) ]
  ∧ ∃ s, s ∈ knowledge st ∧ ¬ count_in_range s.
Proof.
  cbv zeta. split_and!.
  - apply reach_add_knowledge, reach_add_knowledge, reach_init.
  - vm_compute. reflexivity.
  - exists (Sentence.new {[ (0, 4)%Z ]} (-1)). split.
    + apply (list_elem_of_lookup_2 _ 0). vm_compute. reflexivity.
    + unfold count_in_range. simpl. lia.
Qed.

(** C6.  From every reachable state, for every cell and every integer
    count, both simplification passes of [add_knowledge] reach their last
    loop on a state in which no sentence mentions a cell of [mines] or of
    [safes], so line 276 is not executed and the call returns. *)
Theorem add_knowledge_never_raises st c n :
  reachable st →
  let st1 := simplify (record_move c n st) in
  let st2 := simplify (resolution st1) in
  purged st1 ∧ purged st2 ∧ add_knowledge c n st = Ok st2.
Proof.
  intros Hr. cbv zeta.
  assert (purged (simplify (record_move c n st))) as H1
    by by apply purged_simplify, purged_record_move, purged_reachable.
  assert (purged (simplify (resolution (simplify (record_move c n st))))) as H2
    by by apply purged_simplify, purged_resolution.
  split_and!; [done | done |].
  unfold add_knowledge, mark_sels_as_mine_or_safe.
  by rewrite !purged_hits_mine.
Qed.

Lemma add_knowledge_never_raises_witness :
  add_knowledge (0, 1)%Z 1 state_a
  = Ok (simplify (resolution (simplify (record_move (0, 1)%Z 1 state_a)))).
Proof.
  apply (add_knowledge_never_raises state_a (0, 1)%Z 1).
  apply (reachable_on_reachable game_a), reachable_on_state_a.
Defined.

(** C7.  [mark_mine], [mark_safe] and [add_knowledge] (whatever its
    outcome) leave [moves_made], [safes] and [mines] supersets of what they
    were. *)
Theorem facts_only_grow st c n :
  grows st (mark_mine c st)
  ∧ grows st (mark_safe c st)
  ∧ grows st (state_of (add_knowledge c n st)).
Proof.
  split_and!.
  - apply grows_mark_mine, grows_refl.
  - apply grows_mark_safe, grows_refl.
  - apply grows_add_knowledge.
Qed.

(** C8.  Calling [mark_safe], or [mark_mine], a second time with the same
    cell leaves the whole object as the first call left it. *)
Theorem marking_idempotent st c :
  mark_safe c (mark_safe c st) = mark_safe c st
  ∧ mark_mine c (mark_mine c st) = mark_mine c st.
Proof.
  split; unfold mark_safe, mark_mine; simpl; f_equal.
  - set_solver.
  - rewrite <- list_fmap_compose. apply list_fmap_ext.
    intros i s _. apply sentence_mark_safe_idemp.
  - set_solver.
  - rewrite <- list_fmap_compose. apply list_fmap_ext.
    intros i s _. apply sentence_mark_mine_idemp.
Qed.

(** C9.  A cell returned by [make_random_move] is on the board, not in
    [moves_made] and not in [mines]; a cell is returned whenever such a
    cell exists; and [None] is returned exactly when every cell of the
    board is in [moves_made] or in [mines]. *)
Theorem make_random_move_spec rnd st :
  (∀ c, make_random_move rnd st = Some c →
        in_bounds (height st) (width st) c = true
        ∧ (c ∉ moves_made st) ∧ (c ∉ mines st))
  ∧ ((∃ c, in_bounds (height st) (width st) c = true
           ∧ (c ∉ moves_made st) ∧ (c ∉ mines st)) →
     ∃ c, make_random_move rnd st = Some c)
  ∧ (make_random_move rnd st = None ↔
     ∀ c, in_bounds (height st) (width st) c = true →
          c ∈ moves_made st ∨ c ∈ mines st).
Proof.
  unfold make_random_move.
  pose proof (elem_of_random_moves st) as Hspec.
  destruct (random_moves st) as [|x l] eqn:Hl.
  - split_and!.
    + by intros c ?.
    + intros (c & Hc). apply Hspec in Hc. by apply elem_of_nil in Hc.
    + split; [|done]. intros _ c Hb.
      destruct (decide (c ∈ moves_made st)) as [|H1]; [by left|].
      destruct (decide (c ∈ mines st)) as [|H2]; [by right|].
      assert (c ∈ []) as Hc by (apply Hspec; done). by apply elem_of_nil in Hc.
  - assert (rnd mod length (x :: l) < length (x :: l)) as Hlt
      by (apply Nat.mod_upper_bound; simpl; lia).
    apply lookup_lt_is_Some_2 in Hlt as [y Hy]. rewrite Hy.
    split_and!.
    + intros c [= <-]. apply Hspec. by eapply list_elem_of_lookup_2.
    + intros _. by exists y.
    + split; [done|]. intros Hall. exfalso.
      assert (x ∈ x :: l) as Hx by apply list_elem_of_here.
      apply Hspec in Hx as (Hb & H1 & H2). destruct (Hall x Hb); done.
Qed.

Lemma make_random_move_spec_witness :
  ∃ c, make_random_move 5 state_a = Some c.
Proof.
  refine (proj1 (proj2 (make_random_move_spec 5 state_a)) _).
  exists (1, 2)%Z. split_and!.
  - reflexivity.
  - intros Hin. vm_compute in Hin. discriminate Hin.
  - intros Hin. vm_compute in Hin. discriminate Hin.
Defined.

(** C10.  On a fresh 3x3 object, [add_knowledge((1,1), 1)] returns and
    leaves exactly one sentence, over the eight neighbours of (1,1) with
    count 1. *)
Theorem scenario_3 :
  add_knowledge (1, 1)%Z 1 (init 3 3)
  = Ok (AI 3 3 {[ (1, 1)%Z ]} ∅ {[ (1, 1)%Z ]} [Sentence.new ring_1_1 1])
  ∧ ring_1_1 = list_to_set (around (1, 1)%Z) ∖ {[ (1, 1)%Z ]}
  ∧ size ring_1_1 = 8.
Proof. split_and!; vm_compute; reflexivity. Qed.

(** * Further properties *)

(** ** The board of a game *)

Lemma length_range n : length (range n) = Z.to_nat n.
Proof. unfold range. by rewrite length_fmap, length_seq. Qed.

Lemma foldl_snoc_replicate {A B} (x : A) (l : list B) : ∀ acc,
  foldl (λ row _, row ++ [x]) acc l = acc ++ replicate (length l) x.
Proof.
  induction l as [|y l IH]; intros acc; simpl.
  - by rewrite app_nil_r.
  - rewrite IH, <- app_assoc. done.
Qed.

Lemma empty_board_replicate height width :
  Game.empty_board height width
  = replicate (Z.to_nat height) (replicate (Z.to_nat width) false).
Proof.
  unfold Game.empty_board, Game.empty_row.
  by rewrite !foldl_snoc_replicate, !length_range.
Qed.

Lemma index_in_range {A} (l : list A) i :
  (0 ≤ i < Z.of_nat (length l))%Z → Game.index l i = l !! Z.to_nat i.
Proof.
  intros Hi. unfold Game.index.
  destruct (Z.leb_spec 0 i); [|lia]. destruct (Z.ltb_spec i (Z.of_nat (length l))); [|lia].
  done.
Qed.

Lemma index_negative {A} (l : list A) i :
  (- Z.of_nat (length l) ≤ i < 0)%Z →
  Game.index l i = l !! Z.to_nat (Z.of_nat (length l) + i).
Proof.
  intros Hi. unfold Game.index.
  destruct (Z.leb_spec 0 i); [lia|]. simpl.
  destruct (Z.leb_spec (- Z.of_nat (length l)) i); [|lia].
  destruct (Z.ltb_spec i 0); [|lia]. done.
Qed.

Lemma index_out_of_range {A} (l : list A) i :
  (i < - Z.of_nat (length l) ∨ Z.of_nat (length l) ≤ i)%Z → Game.index l i = None.
Proof.
  intros Hi. unfold Game.index.
  destruct (Z.leb_spec 0 i), (Z.ltb_spec i (Z.of_nat (length l))),
    (Z.leb_spec (- Z.of_nat (length l)) i), (Z.ltb_spec i 0); simpl; try done; lia.
Qed.

Lemma in_bounds_spec height width i j :
  in_bounds height width (i, j) = true ↔ (0 ≤ i < height ∧ 0 ≤ j < width)%Z.
Proof.
  unfold in_bounds. simpl. rewrite !andb_true_iff, !Z.leb_le, !Z.ltb_lt. lia.
Qed.

(** Reading the board at a cell of the board. *)
Lemma well_formed_read g i j :
  well_formed g → in_bounds (Game.height g) (Game.width g) (i, j) = true →
  Game.index (Game.board g) i ≫= (λ row, Game.index row j)
  = Some (bool_decide ((i, j) ∈ Game.mines g)).
Proof.
  intros (Hlen & Hrows & Hat & _) Hb. pose proof Hb as Hb'.
  apply in_bounds_spec in Hb' as [Hi Hj].
  rewrite index_in_range by lia.
  specialize (Hat i j Hb). unfold board_at in Hat.
  destruct (Game.board g !! Z.to_nat i) as [row|] eqn:Hrow; [|done]. simpl in *.
  rewrite index_in_range; [done|].
  eapply Forall_lookup_1 in Hrows; [|done]. lia.
Qed.

Lemma well_formed_empty height width :
  well_formed (Game.Game height width ∅ (Game.empty_board height width) ∅).
Proof.
  unfold well_formed, board_at. simpl. rewrite empty_board_replicate.
  split_and!.
  - apply length_replicate.
  - apply Forall_replicate, length_replicate.
  - intros i j [Hi Hj]%in_bounds_spec.
    rewrite lookup_replicate_2 by lia. simpl. rewrite lookup_replicate_2 by lia.
    by rewrite bool_decide_eq_false_2.
  - intros c Hc. by apply elem_of_empty in Hc.
  - done.
Qed.

Lemma well_formed_set_mine g i j :
  well_formed g → in_bounds (Game.height g) (Game.width g) (i, j) = true →
  well_formed (Game.Game (Game.height g) (Game.width g) ({[ (i, j) ]} ∪ Game.mines g)
                         (Game.set_mine i j (Game.board g)) (Game.mines_found g)).
Proof.
  intros (Hlen & Hrows & Hat & Hon & Hfound) Hb. pose proof Hb as Hb'.
  apply in_bounds_spec in Hb' as [Hi Hj].
  unfold well_formed, board_at, Game.set_mine. simpl.
  destruct (Game.board g !! Z.to_nat i) as [row|] eqn:Hrow.
  2:{ apply lookup_ge_None in Hrow. lia. }
  split_and!.
  - by rewrite length_insert.
  - apply Forall_insert; [done|]. rewrite length_insert.
    by eapply Forall_lookup_1 in Hrows.
  - intros i' j' Hb'. pose proof Hb' as [Hi' Hj']%in_bounds_spec.
    specialize (Hat i' j' Hb'). unfold board_at in Hat.
    destruct (decide (i' = i)) as [->|Hne].
    + rewrite list_lookup_insert_eq by (apply lookup_lt_Some in Hrow; lia). simpl.
      rewrite Hrow in Hat. simpl in Hat.
      destruct (decide (j' = j)) as [->|Hnej].
      * rewrite list_lookup_insert_eq by (apply lookup_lt_is_Some; by rewrite Hat).
        rewrite bool_decide_eq_true_2 by set_solver. done.
      * rewrite list_lookup_insert_ne by lia. rewrite Hat. f_equal.
        apply bool_decide_ext. set_solver.
    + rewrite list_lookup_insert_ne by lia. rewrite Hat. f_equal.
      apply bool_decide_ext. set_solver.
  - intros c [->%elem_of_singleton|Hc]%elem_of_union; [done | by apply Hon].
  - done.
Qed.

Lemma randrange_spec n raw i :
  Game.randrange n raw = Some i → (0 ≤ i < n)%Z.
Proof.
  unfold Game.randrange. destruct (Z.leb_spec n 0); [done|].
  intros [= <-]. apply Z.mod_pos_bound. lia.
Qed.

(** The loop of [__init__] keeps the board and the mine set in step. *)
Lemma place_well_formed wanted draws : ∀ g g',
  well_formed g → Game.place wanted draws g = Game.Built g' →
  well_formed g' ∧ Game.height g' = Game.height g ∧ Game.width g' = Game.width g
  ∧ Z.of_nat (size (Game.mines g')) = wanted.
Proof.
  induction draws as [|[raw_i raw_j] draws IH]; intros g g' Hwf; simpl.
  - case_bool_decide; [|done]. by intros [= <-].
  - case_bool_decide; [by intros [= <-]|].
    destruct (Game.randrange (Game.height g) raw_i) as [i|] eqn:Hi; [|done].
    destruct (Game.randrange (Game.width g) raw_j) as [j|] eqn:Hj; [|done].
    apply randrange_spec in Hi, Hj.
    assert (in_bounds (Game.height g) (Game.width g) (i, j) = true) as Hb
      by (by apply in_bounds_spec).
    rewrite (well_formed_read g i j Hwf Hb).
    destruct (bool_decide ((i, j) ∈ Game.mines g)).
    + by apply IH.
    + intros Hplace. apply IH in Hplace; [done|]. by apply well_formed_set_mine.
Qed.

Lemma place_no_index_error wanted draws : ∀ g,
  well_formed g → Game.place wanted draws g ≠ Game.IndexError.
Proof.
  induction draws as [|[raw_i raw_j] draws IH]; intros g Hwf; simpl.
  - by case_bool_decide.
  - case_bool_decide; [done|].
    destruct (Game.randrange (Game.height g) raw_i) as [i|] eqn:Hi; [|done].
    destruct (Game.randrange (Game.width g) raw_j) as [j|] eqn:Hj; [|done].
    apply randrange_spec in Hi, Hj.
    assert (in_bounds (Game.height g) (Game.width g) (i, j) = true) as Hb
      by (by apply in_bounds_spec).
    rewrite (well_formed_read g i j Hwf Hb).
    destruct (bool_decide ((i, j) ∈ Game.mines g)).
    + by apply IH.
    + by apply IH, well_formed_set_mine.
Qed.

(** X1.  When [__init__] returns, the board is a [height] x [width] matrix
    holding [True] exactly at the cells of [self.mines], there are exactly
    as many mines as asked for, all on the board, and [won()] holds at once
    only if no mine was asked for. *)
Theorem init_well_formed height width mines draws g :
  Game.init height width mines draws = Game.Built g →
  well_formed g
  ∧ Game.height g = height ∧ Game.width g = width
  ∧ Z.of_nat (size (Game.mines g)) = mines
  ∧ (Game.won g = true ↔ mines = 0%Z).
Proof.
  intros Hinit. unfold Game.init in Hinit.
  apply place_well_formed in Hinit as (Hwf & Hh & Hw & Hn); [|apply well_formed_empty].
  split_and!; [done | done | done | done |].
  unfold Game.won. destruct Hwf as (_ & _ & _ & _ & ->).
  rewrite bool_decide_eq_true. split.
  - intros Heq. rewrite <- Heq, size_empty in Hn. lia.
  - intros ->. symmetry. apply leibniz_equiv, size_empty_iff. lia.
Qed.

Lemma well_formed_game_d : well_formed game_d.
Proof.
  refine (proj1 (place_well_formed 2 [(0, 1); (0, 1); (3, 2)]
                   (Game.Game 2 2 ∅ (Game.empty_board 2 2) ∅) game_d
                   (well_formed_empty 2 2) _)).
  vm_compute. reflexivity.
Qed.

Lemma init_well_formed_witness :
  well_formed game_d ∧ Game.height game_d = 2%Z ∧ Game.width game_d = 2%Z
  ∧ Z.of_nat (size (Game.mines game_d)) = 2%Z
  ∧ (Game.won game_d = true ↔ 2%Z = 0%Z).
Proof.
  apply (init_well_formed 2 2 2 [(0, 1); (0, 1); (3, 2)] game_d).
  vm_compute. reflexivity.
Defined.

Lemma NoDup_range n : NoDup (range n).
Proof.
  unfold range. apply NoDup_fmap_2; [|apply NoDup_seq].
  intros x y Hxy. lia.
Qed.

Lemma elem_of_board_cells height width c :
  c ∈ board_cells height width ↔ in_bounds height width c = true.
Proof.
  destruct c as [i j]. rewrite in_bounds_spec. unfold board_cells.
  rewrite list_elem_of_bind. setoid_rewrite list_elem_of_bind.
  setoid_rewrite elem_of_range. setoid_rewrite list_elem_of_singleton. split.
  - intros (i' & (j' & [= -> ->] & Hj) & Hi). lia.
  - intros [Hi Hj]. exists i. split; [|done]. by exists j.
Qed.

Lemma NoDup_board_cells height width : NoDup (board_cells height width).
Proof.
  unfold board_cells. apply NoDup_bind; [| |apply NoDup_range].
  - intros i1 i2 c _ _ (j1 & ->%list_elem_of_singleton & _)%list_elem_of_bind
                        (j2 & [= -> _]%list_elem_of_singleton & _)%list_elem_of_bind.
    done.
  - intros i _. apply NoDup_bind; [| |apply NoDup_range].
    + intros j1 j2 c _ _ ->%list_elem_of_singleton [= ->]%list_elem_of_singleton. done.
    + intros j _. apply NoDup_singleton.
Qed.

Lemma length_board_cells height width :
  length (board_cells height width) = Z.to_nat height * Z.to_nat width.
Proof.
  unfold board_cells. rewrite <- (length_range height), <- (length_range width).
  generalize (range width) as js. intros js.
  assert (∀ i : Z, length (js ≫= λ j, [(i, j)]) = length js) as Hrow.
  { intros i. induction js as [|j js IHj]; csimpl; [done|]. by f_equal. }
  induction (range height) as [|i rest IH]; csimpl; [done|].
  by rewrite length_app, IH, Hrow.
Qed.

Lemma well_formed_size g :
  well_formed g → size (Game.mines g) ≤ Z.to_nat (Game.height g) * Z.to_nat (Game.width g).
Proof.
  intros (_ & _ & _ & Hon & _).
  rewrite <- length_board_cells, <- (size_list_to_set (C:=gset cell))
    by apply NoDup_board_cells.
  apply subseteq_size. intros c Hc. apply elem_of_list_to_set, elem_of_board_cells.
  by apply Hon.
Qed.

(** Draws that name pairwise different cells of the board, none of them a
    mine yet, each add one mine. *)
Lemma place_fresh wanted (cs : list cell) : ∀ g,
  well_formed g → NoDup cs →
  (∀ c, c ∈ cs → in_bounds (Game.height g) (Game.width g) c = true ∧ c ∉ Game.mines g) →
  Z.of_nat (size (Game.mines g) + length cs) = wanted →
  ∃ g', Game.place wanted (raw_of <$> cs) g = Game.Built g'.
Proof.
  induction cs as [|[i j] cs IH]; intros g Hwf Hnd Hcs Hn; simpl.
  - rewrite bool_decide_eq_true_2 by (simpl in Hn; lia). by eexists.
  - rewrite bool_decide_eq_false_2 by (simpl in Hn; lia).
    apply NoDup_cons in Hnd as [Hij Hnd].
    destruct (Hcs (i, j)) as [Hb Hfresh]; [apply list_elem_of_here|].
    pose proof Hb as [Hi Hj]%in_bounds_spec.
    unfold Game.randrange.
    destruct (Z.leb_spec (Game.height g) 0); [lia|].
    destruct (Z.leb_spec (Game.width g) 0); [lia|].
    rewrite !Z2Nat.id, !Z.mod_small by lia.
    rewrite (well_formed_read g i j Hwf Hb), bool_decide_eq_false_2 by done.
    apply IH; simpl.
    + by apply well_formed_set_mine.
    + done.
    + intros c Hc. destruct (Hcs c) as [Hcb Hcf]; [by apply list_elem_of_further|].
      split; [done|]. assert (c ≠ (i, j)) by (by intros ->). set_solver.
    + rewrite size_union, size_singleton by set_solver. simpl in Hn. lia.
Qed.

(** X2.  [__init__] can return exactly when the number of mines asked for
    lies between 0 and the number of cells of the board; for any other
    number it raises [ValueError] or never leaves its loop, whatever is
    drawn.  It never raises [IndexError]. *)
Theorem init_returns_iff height width mines :
  ((∃ draws g, Game.init height width mines draws = Game.Built g)
   ↔ (0 ≤ mines ≤ Z.max 0 height * Z.max 0 width)%Z)
  ∧ ∀ draws, Game.init height width mines draws ≠ Game.IndexError.
Proof.
  split; [split|].
  - intros (draws & g & Hinit).
    unfold Game.init in Hinit.
    apply place_well_formed in Hinit as (Hwf & Hh & Hw & Hn);
      [|apply well_formed_empty].
    simpl in Hh, Hw. apply well_formed_size in Hwf. rewrite Hh, Hw in Hwf. nia.
  - intros Hn.
    exists (raw_of <$> take (Z.to_nat mines) (board_cells height width)).
    unfold Game.init. apply place_fresh.
    + apply well_formed_empty.
    + eapply sublist_NoDup; [apply NoDup_board_cells | apply sublist_take].
    + intros c Hc%subseteq_take. simpl. split; [|set_solver].
      by apply elem_of_board_cells.
    + cbn [Game.mines]. rewrite size_empty, length_take_le; [lia|].
      rewrite length_board_cells. nia.
  - intros draws. apply place_no_index_error, well_formed_empty.
Qed.

Lemma init_returns_iff_witness :
  ∃ draws g, Game.init 2 3 6 draws = Game.Built g.
Proof. apply (init_returns_iff 2 3 6). lia. Defined.

Lemma index_wrap {A} (l : list A) n i :
  length l = Z.to_nat n → (- n ≤ i < n)%Z → Game.index l i = l !! Z.to_nat (i mod n).
Proof.
  intros Hlen Hi. destruct (Z.le_gt_cases 0 i).
  - rewrite index_in_range, Z.mod_small by lia. done.
  - rewrite index_negative by lia. do 2 f_equal.
    rewrite <- (Z.mod_small (Z.of_nat (length l) + i) n) by lia.
    replace (Z.of_nat (length l) + i)%Z with (i + 1 * n)%Z by lia.
    apply Z.mod_add. lia.
Qed.

Lemma index_outside {A} (l : list A) n i :
  length l = Z.to_nat n → ¬ (- n ≤ i < n)%Z → Game.index l i = None.
Proof. intros Hlen Hi. apply index_out_of_range. lia. Qed.

(** X3.  On a constructed game, [is_mine((i, j))] raises [IndexError]
    exactly when [i] is outside [-height, height) or [j] outside
    [-width, width); otherwise it tells whether the cell
    [(i mod height, j mod width)] is a mine: negative coordinates wrap
    around, as Python indexing does. *)
Theorem is_mine_spec g i j :
  well_formed g →
  Game.is_mine g (i, j)
  = if bool_decide ((- Game.height g ≤ i < Game.height g)%Z
                    ∧ (- Game.width g ≤ j < Game.width g)%Z)
    then Some (bool_decide ((i mod Game.height g, j mod Game.width g)%Z ∈ Game.mines g))
    else None.
Proof.
  intros (Hlen & Hrows & Hat & _). unfold Game.is_mine. simpl.
  destruct (decide (- Game.height g ≤ i < Game.height g)%Z) as [Hi|Hi].
  2:{ rewrite (index_outside _ (Game.height g)) by done.
      rewrite bool_decide_eq_false_2 by tauto. done. }
  rewrite (index_wrap _ (Game.height g)) by done.
  assert (0 ≤ i mod Game.height g < Game.height g)%Z as Hi'
    by (apply Z.mod_pos_bound; lia).
  destruct (Game.board g !! Z.to_nat (i mod Game.height g)) as [row|] eqn:Hrow.
  2:{ apply lookup_ge_None in Hrow. lia. }
  simpl. assert (length row = Z.to_nat (Game.width g)) as Hrowlen
    by (by eapply Forall_lookup_1 in Hrows).
  destruct (decide (- Game.width g ≤ j < Game.width g)%Z) as [Hj|Hj].
  2:{ rewrite (index_outside _ (Game.width g)) by done.
      rewrite bool_decide_eq_false_2 by tauto. done. }
  rewrite (index_wrap _ (Game.width g)) by done.
  assert (0 ≤ j mod Game.width g < Game.width g)%Z as Hj'
    by (apply Z.mod_pos_bound; lia).
  rewrite bool_decide_eq_true_2 by done.
  specialize (Hat (i mod Game.height g)%Z (j mod Game.width g)%Z).
  unfold board_at in Hat. rewrite Hrow in Hat. simpl in Hat. apply Hat.
  by apply in_bounds_spec.
Qed.

Lemma is_mine_spec_witness : Game.is_mine game_d (-1, -2)%Z = Some true.
Proof. rewrite is_mine_spec by apply well_formed_game_d. reflexivity. Defined.

(** The loop of [nearby_mines] on the object computes, step by step, what
    it computes on the mine set. *)
Lemma nearby_fold g c l : ∀ count,
  well_formed g →
  foldl (Game.nearby_step g c) (Some count) l
  = Some (foldl (Minesweeper.nearby_step (Game.view g) c) count l).
Proof.
  induction l as [|[i j] l IH]; intros count Hwf; [done|].
  change (foldl (Game.nearby_step g c) (Game.nearby_step g c (Some count) (i, j)) l
          = Some (foldl (Minesweeper.nearby_step (Game.view g) c)
                        (Minesweeper.nearby_step (Game.view g) c count (i, j)) l)).
  rewrite <- IH by done. f_equal.
  unfold Game.nearby_step, Minesweeper.nearby_step, Minesweeper.is_mine. simpl.
  case_bool_decide; [done|].
  destruct (in_bounds _ _ (i, j)) eqn:Hb; [|done].
  rewrite (well_formed_read g i j Hwf Hb). done.
Qed.

(** X4.  On a constructed game [nearby_mines] never raises [IndexError]
    (the bounds test comes before the access to the board) and returns
    what the count over the mine set gives. *)
Theorem nearby_mines_view g c :
  well_formed g →
  Game.nearby_mines g c = Some (Minesweeper.nearby_mines (Game.view g) c).
Proof. intros Hwf. by apply nearby_fold. Qed.

Lemma nearby_mines_view_witness : Game.nearby_mines game_d (0, 0)%Z = Some 2%Z.
Proof. rewrite nearby_mines_view by apply well_formed_game_d. reflexivity. Defined.

Lemma nearby_step_count g c l : NoDup l → ∀ count,
  foldl (Minesweeper.nearby_step g c) count l
  = (count + Z.of_nat (size ((list_to_set
       (filter (λ ij, in_bounds (Minesweeper.height g) (Minesweeper.width g) ij = true) l)
         ∖ {[ c ]}) ∩ Minesweeper.mines g)))%Z.
Proof.
  induction 1 as [|ij l Hij Hnd IH]; intros count.
  { rewrite filter_nil, list_to_set_nil.
    replace ((∅ ∖ {[c]}) ∩ Minesweeper.mines g) with (∅ : gset cell) by set_solver.
    rewrite size_empty. simpl. lia. }
  change (foldl (Minesweeper.nearby_step g c) count (ij :: l))
    with (foldl (Minesweeper.nearby_step g c) (Minesweeper.nearby_step g c count ij) l).
  rewrite IH. unfold Minesweeper.nearby_step, Minesweeper.is_mine.
  rewrite filter_cons.
  destruct (decide (ij = c)) as [->|Hc].
  { rewrite bool_decide_eq_true_2 by done. do 3 f_equal.
    destruct (decide _); [|done]. rewrite list_to_set_cons. set_solver. }
  rewrite (bool_decide_eq_false_2 (ij = c)) by done.
  destruct (in_bounds _ _ ij) eqn:Hb.
  2:{ destruct (decide _); [done|]. done. }
  destruct (decide _); [|done]. rewrite list_to_set_cons.
  set (X := list_to_set (filter _ l) : gset cell).
  assert (ij ∉ X) as HX.
  { unfold X. rewrite elem_of_list_to_set, list_elem_of_filter. tauto. }
  destruct (decide (ij ∈ Minesweeper.mines g)) as [Hm|Hm].
  - rewrite bool_decide_eq_true_2 by done.
    assert ((({[ij]} ∪ X) ∖ {[c]}) ∩ Minesweeper.mines g
            = {[ij]} ∪ (X ∖ {[c]}) ∩ Minesweeper.mines g) as -> by set_solver.
    rewrite (size_union {[ij]}), size_singleton by set_solver. lia.
  - rewrite bool_decide_eq_false_2 by done.
    assert ((({[ij]} ∪ X) ∖ {[c]}) ∩ Minesweeper.mines g
            = (X ∖ {[c]}) ∩ Minesweeper.mines g) as -> by set_solver.
    done.
Qed.

Lemma size_neighbours height width c : size (neighbours height width c) ≤ 8.
Proof.
  assert (neighbours height width c ⊆ list_to_set (around c) ∖ {[ c ]}) as Hsub.
  { unfold neighbours. intros x. rewrite !elem_of_difference, !elem_of_list_to_set,
      list_elem_of_filter. tauto. }
  apply subseteq_size in Hsub. etrans; [apply Hsub|].
  rewrite size_difference.
  - rewrite size_list_to_set by apply NoDup_around. rewrite size_singleton.
    destruct c. simpl. lia.
  - apply singleton_subseteq_l, elem_of_list_to_set.
    destruct c as [a b]. unfold around, range3. cbn. set_solver.
Qed.

(** X5.  [nearby_mines(cell)] is the number of mines among the cells of
    the board next to [cell], the cell itself left out; it lies between 0
    and 8. *)
Theorem nearby_mines_count g c :
  Minesweeper.nearby_mines g c
  = Z.of_nat (size (neighbours (Minesweeper.height g) (Minesweeper.width g) c
                    ∩ Minesweeper.mines g))
  ∧ (0 ≤ Minesweeper.nearby_mines g c ≤ 8)%Z.
Proof.
  assert (Minesweeper.nearby_mines g c
          = Z.of_nat (size (neighbours (Minesweeper.height g) (Minesweeper.width g) c
                            ∩ Minesweeper.mines g))) as Heq.
  { unfold Minesweeper.nearby_mines, neighbours.
    rewrite nearby_step_count by apply NoDup_around. lia. }
  split; [done|]. rewrite Heq.
  pose proof (size_neighbours (Minesweeper.height g) (Minesweeper.width g) c) as H8.
  assert (size (neighbours (Minesweeper.height g) (Minesweeper.width g) c
                ∩ Minesweeper.mines g)
          ≤ size (neighbours (Minesweeper.height g) (Minesweeper.width g) c))
    by (apply subseteq_size; set_solver).
  lia.
Qed.

(** ** Equality of sentences and the knowledge list *)

Lemma sentence_eq_view s s' : Sentence.eq s s' = bool_decide (view s = view s').
Proof.
  unfold Sentence.eq, view. apply eq_true_iff_eq.
  rewrite andb_true_iff, !bool_decide_eq_true. split.
  - by intros [-> ->].
  - by intros [= -> ->].
Qed.

Lemma contains_view s k : contains s k = true ↔ view s ∈ view <$> k.
Proof.
  unfold contains. induction k as [|y k IH]; simpl.
  { split; [done|]. by intros ?%elem_of_nil. }
  rewrite sentence_eq_view. split.
  - intros [Hy|Hk]%orb_true_iff.
    + apply bool_decide_eq_true_1 in Hy. rewrite Hy. apply list_elem_of_here.
    + by apply list_elem_of_further, IH.
  - intros [Heq|Hin]%elem_of_cons; apply orb_true_iff.
    + left. by apply bool_decide_eq_true_2.
    + right. by apply IH.
Qed.

Lemma list_remove_absent s k : contains s k = false → list_remove s k = k.
Proof.
  unfold contains. induction k as [|y k IH]; simpl; [done|].
  intros [Hy Hk]%orb_false_iff. rewrite Hy. f_equal. by apply IH.
Qed.

Lemma list_remove_split s k :
  contains s k = true →
  ∃ k1 x k2, k = k1 ++ x :: k2 ∧ view x = view s
             ∧ (∀ y, y ∈ k1 → view y ≠ view s)
             ∧ list_remove s k = k1 ++ k2.
Proof.
  unfold contains. induction k as [|y k IH]; simpl; [done|].
  rewrite sentence_eq_view. intros Hc. case_bool_decide as Hy.
  - exists [], y, k. split_and!; [done | done | | done]. by intros ? ?%elem_of_nil.
  - simpl in Hc. destruct (IH Hc) as (k1 & x & k2 & -> & Hx & Hk1 & ->).
    exists (y :: k1), x, k2. split_and!; [done | done | | done].
    intros z [->|Hz]%elem_of_cons; [done | by apply Hk1].
Qed.

(** X6.  [sentence in self.knowledge] holds when some sentence of the list
    has the same cells and count; [self.knowledge.remove(sentence)] then
    deletes the first such sentence, which need not be the object passed,
    and keeps the others in their order. *)
Theorem remove_first_equal s k :
  (contains s k = true ↔ view s ∈ view <$> k)
  ∧ (contains s k = false → list_remove s k = k)
  ∧ (contains s k = true →
     ∃ k1 x k2, k = k1 ++ x :: k2 ∧ view x = view s
                ∧ (∀ y, y ∈ k1 → view y ≠ view s)
                ∧ list_remove s k = k1 ++ k2).
Proof.
  split_and!; [apply contains_view | apply list_remove_absent | apply list_remove_split].
Qed.

Lemma remove_first_equal_witness :
  list_remove (Sentence.new ∅ 0)
              [Sentence.new {[ (0, 0)%Z ]} 1; Sentence.Sentence ∅ 0 {[ (0, 1)%Z ]} ∅;
               Sentence.new ∅ 0]
  = [Sentence.new {[ (0, 0)%Z ]} 1] ++ [Sentence.new ∅ 0].
Proof.
  destruct (remove_first_equal (Sentence.new ∅ 0)
              [Sentence.new {[ (0, 0)%Z ]} 1; Sentence.Sentence ∅ 0 {[ (0, 1)%Z ]} ∅;
               Sentence.new ∅ 0]) as (_ & _ & H).
  destruct H as (k1 & x & k2 & _ & _ & _ & _); [reflexivity|].
  vm_compute. reflexivity.
Defined.

(** ** Marking several cells *)

Lemma sentence_mark_mines_closed l s :
  foldl (λ acc c, Sentence.mark_mine c acc) s l
  = Sentence.Sentence
      (Sentence.cells s ∖ list_to_set l)
      (Sentence.count s - Z.of_nat (size (Sentence.cells s ∩ list_to_set l)))
      ((Sentence.cells s ∩ list_to_set l) ∪ Sentence.known_mine_set s)
      (Sentence.known_safe_set s).
Proof.
  destruct (sentence_mark_mines l s) as (Hc & Hn & Hm & Hs).
  destruct (foldl _ _ _). simpl in *. by subst.
Qed.

Lemma sentence_mark_safes_closed l s :
  foldl (λ acc c, Sentence.mark_safe c acc) s l
  = Sentence.Sentence
      (Sentence.cells s ∖ list_to_set l)
      (Sentence.count s)
      (Sentence.known_mine_set s)
      ((Sentence.cells s ∩ list_to_set l) ∪ Sentence.known_safe_set s).
Proof.
  destruct (sentence_mark_safes l s) as (Hc & Hn & Hm & Hs).
  destruct (foldl _ _ _). simpl in *. by subst.
Qed.

Lemma mark_mines_closed l : ∀ st,
  mark_mines l st
  = AI (height st) (width st) (moves_made st) (list_to_set l ∪ mines st) (safes st)
       ((λ s, foldl (λ acc c, Sentence.mark_mine c acc) s l) <$> knowledge st).
Proof.
  unfold mark_mines. induction l as [|x l IH]; intros st; simpl.
  - destruct st. simpl. f_equal; [set_solver|]. by rewrite list_fmap_id.
  - rewrite IH. simpl. f_equal; [set_solver|]. by rewrite <- list_fmap_compose.
Qed.

Lemma mark_safes_closed l : ∀ st,
  mark_safes l st
  = AI (height st) (width st) (moves_made st) (mines st) (list_to_set l ∪ safes st)
       ((λ s, foldl (λ acc c, Sentence.mark_safe c acc) s l) <$> knowledge st).
Proof.
  unfold mark_safes. induction l as [|x l IH]; intros st; simpl.
  - destruct st. simpl. f_equal; [set_solver|]. by rewrite list_fmap_id.
  - rewrite IH. simpl. f_equal; [set_solver|]. by rewrite <- list_fmap_compose.
Qed.

(** X7.  Marking the cells of a list as mines (or as safe) one after the
    other gives a state that depends on the set of these cells only: the
    order in which a Python set is visited, and a cell visited twice, make
    no difference. *)
Theorem marking_order_irrelevant (l l' : list cell) st :
  (list_to_set l : gset cell) = list_to_set l' →
  mark_mines l st = mark_mines l' st ∧ mark_safes l st = mark_safes l' st.
Proof.
  intros Heq. rewrite !mark_mines_closed, !mark_safes_closed, Heq.
  split; f_equal; apply list_fmap_ext; intros i s _.
  - by rewrite !sentence_mark_mines_closed, Heq.
  - by rewrite !sentence_mark_safes_closed, Heq.
Qed.

Lemma marking_order_irrelevant_witness :
  mark_mines [(0, 1)%Z; (1, 1)%Z] state_a = mark_mines [(1, 1)%Z; (0, 1)%Z; (1, 1)%Z] state_a.
Proof.
  refine (proj1 (marking_order_irrelevant _ _ state_a _)).
  vm_compute. reflexivity.
Defined.

(** ** The sentence built by [add_knowledge] *)

Lemma neighbour_fold_exact st c l : NoDup l → ∀ (acc : gset cell * Z),
  (∀ x, x ∈ l → x ∉ acc.1) →
  let r := foldl (neighbour_step st c) acc l in
  r.1 = acc.1 ∪ (list_to_set (filter (λ ij, in_bounds (height st) (width st) ij = true) l)
                 ∖ {[ c ]}) ∖ (safes st ∪ mines st)
  ∧ r.2 = (acc.2 - Z.of_nat (size (((list_to_set l ∖ {[ c ]}) ∖ safes st) ∩ mines st)))%Z.
Proof.
  induction 1 as [|ij l Hij Hnd IH]; intros [nc k] Hfresh.
  { cbv zeta. rewrite filter_nil, list_to_set_nil. simpl. split; [set_solver|].
    replace (((∅ ∖ {[c]}) ∖ safes st) ∩ mines st) with (∅ : gset cell) by set_solver.
    rewrite size_empty. lia. }
  change (foldl (neighbour_step st c) (nc, k) (ij :: l))
    with (foldl (neighbour_step st c) (neighbour_step st c (nc, k) ij) l).
  cbv zeta.
  set (F := list_to_set (filter (λ ij, in_bounds (height st) (width st) ij = true) l)
            : gset cell).
  assert ((list_to_set (filter (λ ij, in_bounds (height st) (width st) ij = true) (ij :: l))
           : gset cell)
          = if in_bounds (height st) (width st) ij then {[ij]} ∪ F else F) as ->.
  { rewrite filter_cons. destruct (decide _) as [Hb|Hb].
    - by rewrite Hb, list_to_set_cons.
    - apply not_true_is_false in Hb. by rewrite Hb. }
  rewrite list_to_set_cons.
  set (L := list_to_set l : gset cell).
  assert (ij ∉ L) as HL by (unfold L; by rewrite elem_of_list_to_set).
  assert (ij ∉ nc) as Hnc by apply (Hfresh ij), list_elem_of_here.
  assert (∀ x, x ∈ l → x ∉ nc) as Hfresh'
    by (intros x Hx; by apply (Hfresh x), list_elem_of_further).
  unfold neighbour_step at 2 4.
  destruct (decide (ij = c)) as [->|Hc].
  { rewrite bool_decide_eq_true_2 by done. simpl.
    destruct (IH (nc, k) Hfresh') as [-> ->]. simpl. fold L F. split.
    - destruct (in_bounds _ _ c); set_solver.
    - do 3 f_equal. set_solver. }
  rewrite (bool_decide_eq_false_2 (ij = c)) by done. simpl.
  destruct (decide (ij ∈ safes st)) as [Hs|Hs].
  { rewrite bool_decide_eq_true_2 by done.
    destruct (IH (nc, k) Hfresh') as [-> ->]. simpl. fold L F. split.
    - destruct (in_bounds _ _ ij); set_solver.
    - do 3 f_equal. set_solver. }
  rewrite (bool_decide_eq_false_2 (ij ∈ safes st)) by done.
  destruct (decide (ij ∈ mines st)) as [Hm|Hm].
  { rewrite bool_decide_eq_true_2 by done.
    destruct (IH (nc, (k - 1)%Z) Hfresh') as [-> ->]. simpl. fold L F. split.
    - destruct (in_bounds _ _ ij); set_solver.
    - assert (((({[ij]} ∪ L) ∖ {[c]}) ∖ safes st) ∩ mines st
              = {[ij]} ∪ ((L ∖ {[c]}) ∖ safes st) ∩ mines st) as -> by set_solver.
      rewrite (size_union {[ij]}), size_singleton by set_solver. lia. }
  rewrite (bool_decide_eq_false_2 (ij ∈ mines st)) by done.
  assert (((({[ij]} ∪ L) ∖ {[c]}) ∖ safes st) ∩ mines st
          = ((L ∖ {[c]}) ∖ safes st) ∩ mines st) as -> by set_solver.
  destruct (in_bounds _ _ ij) eqn:Hb.
  - destruct (IH ({[ij]} ∪ nc, k)) as [-> ->].
    { intros x Hx. assert (x ≠ ij) by (by intros ->).
      specialize (Hfresh' x Hx). set_solver. }
    simpl. fold L F. split; [set_solver | done].
  - destruct (IH (nc, k) Hfresh') as [-> ->]. simpl. fold L F. done.
Qed.

(** X8.  The sentence [add_knowledge] builds for a revealed cell is over
    the neighbours on the board that are neither known safe nor known
    mines; its count is the reported count minus the number of known mines
    around the cell, whether on the board or not, that are not also known
    safe. *)
Theorem new_sentence_spec st c n :
  new_sentence st c n
  = Sentence.new
      (neighbours (height st) (width st) c ∖ (safes st ∪ mines st))
      (n - Z.of_nat (size (((list_to_set (around c) ∖ {[ c ]}) ∖ safes st) ∩ mines st))).
Proof.
  unfold new_sentence, neighbours.
  destruct (neighbour_fold_exact st c (around c) (NoDup_around c) (∅, n)) as [H1 H2].
  { intros x _. apply not_elem_of_empty. }
  destruct (foldl _ _ _) as [nc k]. simpl in *. subst. f_equal. set_solver.
Qed.

(** ** Moves *)

Lemma make_safe_move_some visit st c :
  make_safe_move visit st = Some c → c ∈ visit ∧ c ∉ moves_made st.
Proof.
  unfold make_safe_move. intros [Hin Hfree]%find_some.
  apply list_elem_of_In in Hin.
  by apply negb_true_iff, bool_decide_eq_false_1 in Hfree.
Qed.

(** X9.  Whatever the order in which [self.safes] is visited,
    [make_safe_move] returns a cell known safe and not yet played, and it
    returns [None] exactly when every cell known safe was played. *)
Theorem make_safe_move_spec visit st :
  (∀ c, c ∈ visit ↔ c ∈ safes st) →
  (∀ c, make_safe_move visit st = Some c → c ∈ safes st ∧ c ∉ moves_made st)
  ∧ (make_safe_move visit st = None ↔ safes st ⊆ moves_made st).
Proof.
  intros Hvisit. split.
  - intros c [Hin Hfree]%make_safe_move_some. split; [by apply Hvisit | done].
  - unfold make_safe_move. split.
    + intros Hnone c Hc. apply Hvisit, list_elem_of_In in Hc.
      pose proof (find_none _ _ Hnone c Hc) as Hplayed. simpl in Hplayed.
      apply negb_false_iff, bool_decide_eq_true_1 in Hplayed. done.
    + intros Hsub. destruct (find _ visit) as [c|] eqn:Hfind; [|done].
      apply find_some in Hfind as [Hin Hfree].
      apply list_elem_of_In, Hvisit, Hsub in Hin.
      apply negb_true_iff, bool_decide_eq_false_1 in Hfree. done.
Qed.

Lemma make_safe_move_spec_witness :
  (0, 1)%Z ∈ safes (mark_safe (0, 1)%Z (init 2 2))
  ∧ (0, 1)%Z ∉ moves_made (mark_safe (0, 1)%Z (init 2 2)).
Proof.
  refine (proj1 (make_safe_move_spec [(0, 1)%Z] (mark_safe (0, 1)%Z (init 2 2)) _)
                (0, 1)%Z _).
  - intros c. simpl. set_solver.
  - vm_compute. reflexivity.
Defined.

(** X10.  When the object is driven by a game whose mines lie on the
    board, what it knows is true of the game: every cell of [mines] is a
    mine, no cell of [safes] is one, and the count of every sentence is the
    number of mines among its cells. *)
Theorem knowledge_is_true g st :
  on_board g → reachable_on g st →
  (∀ c, c ∈ mines st → Minesweeper.is_mine g c = true)
  ∧ (∀ c, c ∈ safes st → Minesweeper.is_mine g c = false)
  ∧ (∀ s, s ∈ knowledge st →
          Sentence.count s
          = Z.of_nat (size (Sentence.cells s ∩ Minesweeper.mines g))).
Proof.
  intros Hg Hr. destruct (agrees_reachable_on g Hg st Hr) as (_ & _ & Hm & Hs & Hk).
  unfold Minesweeper.is_mine. split_and!.
  - intros c Hc. apply bool_decide_eq_true_2. set_solver.
  - intros c Hc. apply bool_decide_eq_false_2. set_solver.
  - intros s Hin. by apply Hk.
Qed.

Lemma knowledge_is_true_witness : Minesweeper.is_mine game_a (0, 3)%Z = false.
Proof.
  refine (proj1 (proj2 (knowledge_is_true game_a state_a _ _)) (0, 3)%Z _).
  - apply on_board_game_a.
  - apply reachable_on_state_a.
  - vm_compute. reflexivity.
Defined.

Lemma on_board_game_c : on_board game_c.
Proof.
  intros c Hc. assert (c = (0, 2)%Z) as -> by (simpl in Hc; set_solver). reflexivity.
Qed.

Lemma reachable_on_state_c : reachable_on game_c state_c.
Proof. unfold state_c, play. apply play_add_knowledge; [apply play_init | reflexivity]. Defined.

(** X11.  In such a play the cell [make_safe_move] returns is not a mine
    of the game and was not played before. *)
Theorem safe_move_is_safe g st visit c :
  on_board g → reachable_on g st →
  (∀ x, x ∈ visit ↔ x ∈ safes st) →
  make_safe_move visit st = Some c →
  Minesweeper.is_mine g c = false ∧ c ∉ moves_made st.
Proof.
  intros Hg Hr Hvisit [Hin Hfree]%make_safe_move_some. split; [|done].
  destruct (agrees_reachable_on g Hg st Hr) as (_ & _ & _ & Hs & _).
  apply Hvisit in Hin. apply bool_decide_eq_false_2. set_solver.
Qed.

Lemma safe_move_is_safe_witness :
  Minesweeper.is_mine game_c (0, 1)%Z = false ∧ (0, 1)%Z ∉ moves_made state_c.
Proof.
  apply (safe_move_is_safe game_c state_c [(0, 0)%Z; (0, 1)%Z]).
  - apply on_board_game_c.
  - apply reachable_on_state_c.
  - assert (safes state_c = {[ (0, 0)%Z; (0, 1)%Z ]}) as -> by (vm_compute; reflexivity).
    intros x. set_solver.
  - vm_compute. reflexivity.
Defined.

(** X12.  In every reachable state, every cell of [moves_made] is in
    [safes]. *)
Theorem moves_made_are_safe st : reachable st → moves_made st ⊆ safes st.
Proof.
  induction 1 as [h w|st c n _ IH|st c _ IH|st c _ IH].
  - done.
  - apply (add_knowledge_ind (λ st', moves_made st' ⊆ safes st')).
    + intros st' s Hp _ _ _. apply mark_mines_ind; [|done]. by intros x st'' _ Hx.
    + intros st' s Hp _ _. apply mark_safes_ind; [|done].
      intros x st'' _ Hx. simpl. set_solver.
    + by intros st' k Hp _.
    + by intros st' Hp.
    + unfold record_move. destruct (contains _ _); simpl; set_solver.
  - done.
  - simpl. set_solver.
Qed.

Lemma moves_made_are_safe_witness : moves_made state_a ⊆ safes state_a.
Proof.
  apply moves_made_are_safe. apply (reachable_on_reachable game_a), reachable_on_state_a.
Defined.

Lemma unmentioned_mark_mine c x st : unmentioned c st → unmentioned c (mark_mine x st).
Proof.
  intros Hu s' (s & -> & Hs)%list_elem_of_fmap.
  rewrite sentence_mark_mine_cells. specialize (Hu s Hs). set_solver.
Qed.

Lemma unmentioned_mark_safe c x st : unmentioned c st → unmentioned c (mark_safe x st).
Proof.
  intros Hu s' (s & -> & Hs)%list_elem_of_fmap.
  rewrite sentence_mark_safe_cells. specialize (Hu s Hs). set_solver.
Qed.

(** X13.  After [add_knowledge(cell, count)], whatever the state before
    and whatever the count, the cell is in [moves_made] and in [safes] and
    no sentence of the knowledge base mentions it. *)
Theorem add_knowledge_records_move st c n :
  let st' := state_of (add_knowledge c n st) in
  c ∈ moves_made st' ∧ c ∈ safes st' ∧ ∀ s, s ∈ knowledge st' → c ∉ Sentence.cells s.
Proof.
  cbv zeta.
  apply (add_knowledge_ind
           (λ st', c ∈ moves_made st' ∧ c ∈ safes st' ∧ unmentioned c st')).
  - intros st' s Hp _ _ _. apply mark_mines_ind; [|done].
    intros x st'' _ (H1 & H2 & H3). split_and!; [done | done |].
    by apply unmentioned_mark_mine.
  - intros st' s Hp _ _. apply mark_safes_ind; [|done].
    intros x st'' _ (H1 & H2 & H3). split_and!; [done | simpl; set_solver |].
    by apply unmentioned_mark_safe.
  - intros st' k (H1 & H2 & H3) Hk. split_and!; [done | done |].
    intros s Hs. by apply H3, Hk.
  - intros st' (H1 & H2 & H3). split_and!; [done | done |].
    intros s [Hs|Hs]%elem_of_app; [by apply H3|].
    apply elem_of_new_sentences in Hs as (s1 & s2 & _ & Hs2 & _ & ->).
    simpl. specialize (H3 s2 Hs2). set_solver.
  - unfold record_move.
    assert (∀ st3, unmentioned c
              (set_knowledge (Sentence.discard c <$> knowledge st3) st3)) as Hd.
    { intros st3 s' (s & -> & Hs)%list_elem_of_fmap.
      rewrite sentence_discard_cells. set_solver. }
    destruct (contains _ _); (split_and!; [simpl; set_solver | simpl; set_solver | apply Hd]).
Qed.

(** ** Resolution *)

(** X14.  The sentences the resolution step derives are exactly those
    obtained from two sentences of the knowledge base, the cells of one
    strictly included in the cells of the other, as the set difference of
    the cells with the difference of the counts. *)
Theorem derived_sentences x k :
  x ∈ new_sentences k ↔
  ∃ s s', s ∈ k ∧ s' ∈ k ∧ Sentence.cells s ⊂ Sentence.cells s'
          ∧ x = Sentence.new (Sentence.cells s' ∖ Sentence.cells s)
                             (Sentence.count s' - Sentence.count s).
Proof.
  assert (∀ s1 s2, Sentence.cells s1 ⊆ Sentence.cells s2 →
                   Sentence.len s1 ≠ Sentence.len s2 →
                   Sentence.cells s1 ⊂ Sentence.cells s2) as Hstrict.
  { intros s1 s2 Hsub Hlen. split; [done|]. intros Hsub'. apply Hlen.
    unfold Sentence.len. f_equal. f_equal. set_solver. }
  unfold new_sentences. split.
  - intros (s1 & Hx & Hs1)%list_elem_of_bind.
    apply list_elem_of_bind in Hx as (s2 & Hx & Hs2).
    unfold resolve_pair in Hx.
    destruct (Sentence.eq s1 s2 || bool_decide (Sentence.len s1 = Sentence.len s2)) eqn:Hskip.
    { by apply elem_of_nil in Hx. }
    apply orb_false_iff in Hskip as [_ Hlen]. apply bool_decide_eq_false_1 in Hlen.
    case_bool_decide as H12.
    { apply list_elem_of_singleton in Hx as ->. exists s1, s2. auto. }
    case_bool_decide as H21; [|by apply elem_of_nil in Hx].
    apply list_elem_of_singleton in Hx as ->. exists s2, s1.
    split_and!; [done | done | | done]. apply Hstrict; [done | congruence].
  - intros (s & s' & Hs & Hs' & Hsub & ->).
    apply list_elem_of_bind. exists s. split; [|done].
    apply list_elem_of_bind. exists s'. split; [|done].
    unfold resolve_pair, Sentence.eq.
    pose proof (subset_size _ _ Hsub) as Hsize.
    rewrite (bool_decide_eq_false_2 (Sentence.cells s = Sentence.cells s'))
      by (intros Heq; rewrite Heq in Hsize; lia).
    rewrite (bool_decide_eq_false_2 (Sentence.len s = Sentence.len s'))
      by (unfold Sentence.len; lia).
    rewrite (bool_decide_eq_true_2 (Sentence.cells s ⊆ Sentence.cells s'))
      by (by apply Hsub).
    apply list_elem_of_here.
Qed.

(** X15.  If every sentence of the knowledge base counts the mines of a
    game among its cells, so does every sentence the resolution step
    derives, and its count then lies between 0 and the number of its
    cells. *)
Theorem derived_sentences_true g k x :
  (∀ s, s ∈ k → counts g s) → x ∈ new_sentences k →
  counts g x ∧ count_in_range x.
Proof.
  intros Hk (s & s' & Hs & Hs' & Hsub & ->)%elem_of_new_sentences.
  assert (counts g (Sentence.new (Sentence.cells s' ∖ Sentence.cells s)
                                 (Sentence.count s' - Sentence.count s))) as Hc.
  { pose proof (Hk s Hs) as H1. pose proof (Hk s' Hs') as H2.
    unfold counts in *. simpl. rewrite H1, H2.
    assert ((Sentence.cells s' ∖ Sentence.cells s) ∩ Minesweeper.mines g
            = (Sentence.cells s' ∩ Minesweeper.mines g)
                ∖ (Sentence.cells s ∩ Minesweeper.mines g)) as -> by set_solver.
    assert (Sentence.cells s ∩ Minesweeper.mines g
            ⊆ Sentence.cells s' ∩ Minesweeper.mines g) as Hsub' by set_solver.
    rewrite (size_difference (Sentence.cells s' ∩ Minesweeper.mines g)
                             (Sentence.cells s ∩ Minesweeper.mines g)) by done.
    apply subseteq_size in Hsub'. lia. }
  split; [done|]. unfold counts in Hc. unfold count_in_range, Sentence.len.
  rewrite Hc. simpl.
  assert (size ((Sentence.cells s' ∖ Sentence.cells s) ∩ Minesweeper.mines g)
          ≤ size (Sentence.cells s' ∖ Sentence.cells s))
    by (apply subseteq_size; set_solver).
  lia.
Qed.

Lemma derived_sentences_true_witness :
  counts game_b (Sentence.new {[ (0, 2)%Z; (1, 2)%Z ]} 1).
Proof.
  refine (proj1 (derived_sentences_true game_b
                   [Sentence.new {[ (1, 0)%Z; (1, 1)%Z ]} 1;
                    Sentence.new {[ (0, 2)%Z; (1, 0)%Z; (1, 1)%Z; (1, 2)%Z ]} 2]
                   _ _ _)).
  - intros s [->|[->|[]%elem_of_nil]%elem_of_cons]%elem_of_cons;
      unfold counts; vm_compute; reflexivity.
  - apply list_elem_of_here.
Defined.

(** ** What a simplification pass touches *)

Lemma elem_of_mentioned x st :
  x ∈ mentioned st ↔ ∃ s, s ∈ knowledge st ∧ x ∈ Sentence.cells s.
Proof.
  unfold mentioned. rewrite elem_of_union_list. split.
  - intros (X & (s & -> & Hs)%list_elem_of_fmap & Hx). by exists s.
  - intros (s & Hs & Hx). exists (Sentence.cells s). split; [|done].
    apply list_elem_of_fmap. by exists s.
Qed.

Lemma mentioned_mark_mines l st :
  mentioned (mark_mines l st) = mentioned st ∖ list_to_set l.
Proof.
  apply set_eq. intros x. rewrite elem_of_difference, !elem_of_mentioned.
  rewrite mark_mines_closed. simpl. split.
  - intros (s' & (s & -> & Hs)%list_elem_of_fmap & Hx).
    rewrite sentence_mark_mines_closed in Hx. simpl in Hx.
    split; [exists s|]; set_solver.
  - intros [(s & Hs & Hx) Hl]. exists (foldl (λ acc c, Sentence.mark_mine c acc) s l).
    split; [apply list_elem_of_fmap; by exists s|].
    rewrite sentence_mark_mines_closed. simpl. set_solver.
Qed.

Lemma mentioned_mark_safes l st :
  mentioned (mark_safes l st) = mentioned st ∖ list_to_set l.
Proof.
  apply set_eq. intros x. rewrite elem_of_difference, !elem_of_mentioned.
  rewrite mark_safes_closed. simpl. split.
  - intros (s' & (s & -> & Hs)%list_elem_of_fmap & Hx).
    rewrite sentence_mark_safes_closed in Hx. simpl in Hx.
    split; [exists s|]; set_solver.
  - intros [(s & Hs & Hx) Hl]. exists (foldl (λ acc c, Sentence.mark_safe c acc) s l).
    split; [apply list_elem_of_fmap; by exists s|].
    rewrite sentence_mark_safes_closed. simpl. set_solver.
Qed.

Lemma cells_mentioned s st : s ∈ knowledge st → Sentence.cells s ⊆ mentioned st.
Proof. intros Hs x Hx. apply elem_of_mentioned. by exists s. Qed.

Lemma frame_refl st : frame st st.
Proof. by unfold frame. Qed.

Lemma frame_mark_mines st st' s :
  frame st st' → s ∈ knowledge st' →
  frame st (mark_mines (elements (Sentence.cells s)) st').
Proof.
  intros (Hh & Hw & Hmv & Hm & Hs & Hment & Hfoot) Hin.
  pose proof (cells_mentioned s st' Hin) as Hsub.
  unfold frame, footprint in *. rewrite mentioned_mark_mines.
  rewrite mark_mines_closed. simpl. rewrite list_to_set_elements_L.
  split_and!; [done | done | done | set_solver | done | set_solver |].
  rewrite <- Hfoot. apply set_eq. intros x.
  destruct (decide (x ∈ Sentence.cells s)); set_solver.
Qed.

Lemma frame_mark_safes st st' s :
  frame st st' → s ∈ knowledge st' →
  frame st (mark_safes (elements (Sentence.cells s)) st').
Proof.
  intros (Hh & Hw & Hmv & Hm & Hs & Hment & Hfoot) Hin.
  pose proof (cells_mentioned s st' Hin) as Hsub.
  unfold frame, footprint in *. rewrite mentioned_mark_safes.
  rewrite mark_safes_closed. simpl. rewrite list_to_set_elements_L.
  split_and!; [done | done | done | done | set_solver | set_solver |].
  rewrite <- Hfoot. apply set_eq. intros x.
  destruct (decide (x ∈ Sentence.cells s)); set_solver.
Qed.

Lemma emptied_mark_mines l st tr : emptied st tr → emptied (mark_mines l st) tr.
Proof.
  unfold emptied. intros He. eapply Forall_impl; [exact He|]. intros j Hj s'.
  rewrite mark_mines_closed. simpl. rewrite list_lookup_fmap.
  destruct (knowledge st !! j) as [s|] eqn:Hs; [|done]. intros [= <-].
  rewrite sentence_mark_mines_closed. simpl. rewrite (Hj s Hs). set_solver.
Qed.

Lemma emptied_mark_safes l st tr : emptied st tr → emptied (mark_safes l st) tr.
Proof.
  unfold emptied. intros He. eapply Forall_impl; [exact He|]. intros j Hj s'.
  rewrite mark_safes_closed. simpl. rewrite list_lookup_fmap.
  destruct (knowledge st !! j) as [s|] eqn:Hs; [|done]. intros [= <-].
  rewrite sentence_mark_safes_closed. simpl. rewrite (Hj s Hs). set_solver.
Qed.

Lemma emptied_by_mark_mines st i s :
  knowledge st !! i = Some s → emptied (mark_mines (elements (Sentence.cells s)) st) [i].
Proof.
  intros Hs. apply Forall_singleton. intros s'.
  rewrite mark_mines_closed. simpl. rewrite list_lookup_fmap, Hs. intros [= <-].
  rewrite sentence_mark_mines_closed. simpl. rewrite list_to_set_elements_L. set_solver.
Qed.

Lemma emptied_by_mark_safes st i s :
  knowledge st !! i = Some s → emptied (mark_safes (elements (Sentence.cells s)) st) [i].
Proof.
  intros Hs. apply Forall_singleton. intros s'.
  rewrite mark_safes_closed. simpl. rewrite list_lookup_fmap, Hs. intros [= <-].
  rewrite sentence_mark_safes_closed. simpl. rewrite list_to_set_elements_L. set_solver.
Qed.

Lemma scan_step_frame st0 st tr i :
  frame st0 st → emptied st tr →
  frame st0 (scan_step (st, tr) i).1
  ∧ emptied (scan_step (st, tr) i).1 (scan_step (st, tr) i).2.
Proof.
  intros Hf He. unfold scan_step.
  destruct (knowledge st !! i) as [s|] eqn:Hs; [|done].
  assert (s ∈ knowledge st) as Hin by (by eapply list_elem_of_lookup_2).
  destruct (bool_decide (Sentence.len s = 0%Z)) eqn:Hlen.
  { split; [done|]. apply Forall_app. split; [done|]. apply Forall_singleton.
    intros s' Hs'. simpl in Hs'. assert (s' = s) as -> by congruence.
    apply bool_decide_eq_true_1 in Hlen. unfold Sentence.len in Hlen.
    apply leibniz_equiv, size_empty_iff. lia. }
  destruct (bool_decide (Sentence.len s = Sentence.count s)
            && negb (bool_decide (Sentence.count s = 0%Z))).
  - pose proof (frame_mark_mines st0 st s Hf Hin) as Hf1.
    assert (emptied (mark_mines (elements (Sentence.cells s)) st) (tr ++ [i])) as He1.
    { apply Forall_app. split; [by apply emptied_mark_mines|].
      by apply emptied_by_mark_mines. }
    destruct (knowledge (mark_mines _ st) !! i) as [s1|] eqn:Hs1; [|done].
    destruct (bool_decide (Sentence.count s1 = 0%Z)); [|done]. simpl. split.
    + apply frame_mark_safes; [done | by eapply list_elem_of_lookup_2].
    + apply Forall_app. split; [by apply emptied_mark_safes|].
      by apply emptied_by_mark_safes.
  - rewrite Hs. destruct (bool_decide (Sentence.count s = 0%Z)); [|done]. simpl. split.
    + by apply frame_mark_safes.
    + apply Forall_app. split; [by apply emptied_mark_safes|].
      by apply emptied_by_mark_safes.
Qed.

Lemma scan_fold_frame st0 idx : ∀ st tr,
  frame st0 st → emptied st tr →
  frame st0 (foldl scan_step (st, tr) idx).1
  ∧ emptied (foldl scan_step (st, tr) idx).1 (foldl scan_step (st, tr) idx).2.
Proof.
  induction idx as [|i idx IH]; intros st tr Hf He; [done|].
  change (foldl scan_step (st, tr) (i :: idx))
    with (foldl scan_step (scan_step (st, tr) i) idx).
  destruct (scan_step_frame st0 st tr i Hf He) as [Hf1 He1].
  destruct (scan_step (st, tr) i) as [st1 tr1]. by apply IH.
Qed.

(** Removing sentences without cells does not change what is mentioned. *)
Lemma mentioned_remove_all (rs : list Sentence.t) : ∀ k,
  (∀ r, r ∈ rs → Sentence.cells r = ∅) →
  ⋃ (Sentence.cells <$> remove_all rs k) = (⋃ (Sentence.cells <$> k) : gset cell).
Proof.
  unfold remove_all. induction rs as [|r rs IH]; intros k Hrs; [done|].
  simpl. rewrite IH by (intros r' Hr'; by apply Hrs, list_elem_of_further).
  unfold remove_step. destruct (contains r k) eqn:Hc; [|done].
  destruct (list_remove_split r k Hc) as (k1 & x & k2 & -> & Hx & _ & ->).
  assert (Sentence.cells x = ∅) as Hempty.
  { unfold view in Hx. injection Hx as -> _. apply Hrs, list_elem_of_here. }
  rewrite !fmap_app, fmap_cons, !union_list_app_L, union_list_cons, Hempty.
  set_solver.
Qed.

(** The knowledge list after the removals is a part of the list before,
    in the same order. *)
Lemma list_remove_sublist s k : list_remove s k `sublist_of` k.
Proof.
  induction k as [|x k IH]; simpl; [done|].
  destruct (Sentence.eq x s); [by apply sublist_cons | by apply sublist_skip].
Qed.

Lemma remove_all_sublist (rs : list Sentence.t) : ∀ k, remove_all rs k `sublist_of` k.
Proof.
  unfold remove_all. induction rs as [|r rs IH]; intros k; simpl; [done|].
  etrans; [apply IH|]. unfold remove_step.
  destruct (contains r k); [apply list_remove_sublist | done].
Qed.

(** The first loop keeps every sentence at its position and takes the
    marked cells out of all of them. *)
Lemma marked_cells st0 st Km Ks s1 :
  marked st0 st Km Ks → s1 ∈ knowledge st → Sentence.cells s1 ⊆ mentioned st0.
Proof.
  intros (_ & _ & _ & Hk) Hs1.
  apply list_elem_of_lookup in Hs1 as [i Hi].
  destruct (Forall2_lookup_r _ _ _ _ _ Hk Hi) as (s & Hs & Hc).
  rewrite Hc. intros x Hx. apply elem_of_mentioned. exists s. split.
  - by eapply list_elem_of_lookup_2.
  - set_solver.
Qed.

Lemma marked_mark_mines st0 st Km Ks s :
  marked st0 st Km Ks → s ∈ knowledge st →
  marked st0 (mark_mines (elements (Sentence.cells s)) st) (Km ∪ Sentence.cells s) Ks.
Proof.
  intros Hm Hs. pose proof (marked_cells _ _ _ _ _ Hm Hs) as Hsub.
  destruct Hm as (Hmi & Hsa & Hmen & Hk).
  unfold marked. rewrite mark_mines_closed. simpl. rewrite list_to_set_elements_L.
  split_and!; [set_solver | done | set_solver |].
  apply Forall2_fmap_r. eapply Forall2_impl; [exact Hk|].
  intros x y Hxy. unfold compose. cbv beta in Hxy |- *.
  rewrite sentence_mark_mines_closed. simpl.
  rewrite list_to_set_elements_L, Hxy. set_solver.
Qed.

Lemma marked_mark_safes st0 st Km Ks s :
  marked st0 st Km Ks → s ∈ knowledge st →
  marked st0 (mark_safes (elements (Sentence.cells s)) st) Km (Ks ∪ Sentence.cells s).
Proof.
  intros Hm Hs. pose proof (marked_cells _ _ _ _ _ Hm Hs) as Hsub.
  destruct Hm as (Hmi & Hsa & Hmen & Hk).
  unfold marked. rewrite mark_safes_closed. simpl. rewrite list_to_set_elements_L.
  split_and!; [done | set_solver | set_solver |].
  apply Forall2_fmap_r. eapply Forall2_impl; [exact Hk|].
  intros x y Hxy. unfold compose. cbv beta in Hxy |- *.
  rewrite sentence_mark_safes_closed. simpl.
  rewrite list_to_set_elements_L, Hxy. set_solver.
Qed.

Lemma scan_marked st : ∃ Km Ks, marked st (scan st).1 Km Ks.
Proof.
  apply (scan_ind (λ st', ∃ Km Ks, marked st st' Km Ks)).
  - intros st' s (Km & Ks & Hm) Hs _ _. exists (Km ∪ Sentence.cells s), Ks.
    by apply marked_mark_mines.
  - intros st' s (Km & Ks & Hm) Hs _. exists Km, (Ks ∪ Sentence.cells s).
    by apply marked_mark_safes.
  - exists ∅, ∅. unfold marked. split_and!; [set_solver..|].
    apply Forall_Forall2_diag, Forall_forall. intros s _. set_solver.
Qed.

(** X16.  A simplification pass, whatever its outcome, leaves the board
    size and [moves_made] as they are, only adds to [mines] and [safes],
    and neither forgets nor invents a cell: the cells that are known or
    mentioned by a sentence are the same before and after.  Sentence by
    sentence: there are sets [Km] and [Ks] of cells mentioned before the
    pass such that [mines] gains exactly [Km], [safes] gains exactly [Ks],
    and the knowledge list after the pass is, in the same order, a part of
    the list before the pass with the cells of [Km] and [Ks] taken out of
    every sentence.  So no sentence is added, none gains a cell, and no
    cell passes from one sentence to another. *)
Theorem simplification_pass_frame st :
  frame st (state_of (mark_sels_as_mine_or_safe st))
  ∧ length (knowledge (state_of (mark_sels_as_mine_or_safe st)))
    ≤ length (knowledge st)
  ∧ ∃ (Km Ks : gset cell) (k1 : list Sentence.t),
      mines (state_of (mark_sels_as_mine_or_safe st)) = mines st ∪ Km
      ∧ safes (state_of (mark_sels_as_mine_or_safe st)) = safes st ∪ Ks
      ∧ Km ∪ Ks ⊆ mentioned st
      ∧ Forall2 (λ s s1, Sentence.cells s1 = Sentence.cells s ∖ (Km ∪ Ks))
                (knowledge st) k1
      ∧ knowledge (state_of (mark_sels_as_mine_or_safe st)) `sublist_of` k1.
Proof.
  rewrite state_of_mark_sels. split; [|split].
  - unfold simplify, scan.
    destruct (scan_fold_frame st (seq 0 (length (knowledge st))) st [])
      as [Hf He]; [apply frame_refl | by apply Forall_nil|].
    destruct (scan_fold_shape (seq 0 (length (knowledge st))) st [])
      as (st1 & tr & Heq & Hlen & _).
    rewrite Heq in Hf, He |- *. simpl in *.
    set (rs := omap (λ i, knowledge st1 !! i) tr).
    assert (∀ r, r ∈ rs → Sentence.cells r = ∅) as Hrs.
    { intros r (j & Hj & Hr)%list_elem_of_omap.
      eapply Forall_forall in He; [|done]. by apply He. }
    destruct Hf as (Hh & Hw & Hmv & Hm & Hs & Hment & Hfoot).
    unfold frame, footprint, mentioned in *. simpl.
    rewrite !mentioned_remove_all by done. done.
  - unfold simplify, scan.
    destruct (scan_fold_shape (seq 0 (length (knowledge st))) st [])
      as (st1 & tr & Heq & Hlen & _).
    rewrite Heq. simpl. rewrite <- Hlen. apply remove_all_length.
  - destruct (scan_marked st) as (Km & Ks & Hmi & Hsa & Hmen & Hk).
    exists Km, Ks. unfold simplify. destruct (scan st) as [st1 tr]. simpl in *.
    exists (knowledge st1). split_and!; [done..|]. apply remove_all_sublist.
Qed.

(** ** The states a simplification pass leaves alone *)

(** X20.  One call of [mark_sels_as_mine_or_safe] returns and leaves the
    whole state as it was exactly when the knowledge base has no sentence
    with an empty cell set, none with count 0 over a non-empty cell set,
    none with a positive count equal to its number of cells, and no
    sentence that mentions a known mine. *)
Theorem simplification_pass_fixpoint st :
  mark_sels_as_mine_or_safe st = Ok st ↔ settled st ∧ mine_free st.
Proof.
  unfold mark_sels_as_mine_or_safe. split.
  - intros Hok. assert (simplify st = st ∧ hits_mine st = false) as [Heq Hm].
    { destruct (hits_mine (simplify st)) eqn:Hh; [done|].
      injection Hok as Hok. by rewrite Hok in Hh. }
    split; [|by apply mine_free_hits_mine].
    intros s Hs Ht. pose proof (simplify_trivial st s Hs Ht) as Hlt.
    rewrite Heq in Hlt. lia.
  - intros [Hs Hm%mine_free_hits_mine].
    assert (simplify st = st) as ->.
    { unfold simplify. rewrite scan_settled by done. by destruct st. }
    by rewrite Hm.
Qed.

Lemma simplification_pass_fixpoint_witness :
  mark_sels_as_mine_or_safe (state_of (add_knowledge (1, 1)%Z 1 (init 3 3)))
  = Ok (state_of (add_knowledge (1, 1)%Z 1 (init 3 3))).
Proof.
  apply simplification_pass_fixpoint. split.
  - intros s Hs. vm_compute in Hs. apply list_elem_of_singleton in Hs. subst s.
    unfold trivial. vm_compute. intros [H|[[H _]|[H _]]]; discriminate H.
  - apply mine_free_hits_mine. vm_compute. reflexivity.
Defined.

(** ** What a simplification pass achieves *)

Lemma scan_fold_ind (P : MinesweeperAI.t → Prop) :
  (∀ st s, P st → s ∈ knowledge st →
           Sentence.len s = Sentence.count s → Sentence.count s ≠ 0%Z →
           P (mark_mines (elements (Sentence.cells s)) st)) →
  (∀ st s, P st → s ∈ knowledge st → Sentence.count s = 0%Z →
           P (mark_safes (elements (Sentence.cells s)) st)) →
  ∀ idx st tr, P st → P (foldl scan_step (st, tr) idx).1.
Proof.
  intros Hm Hs. induction idx as [|i idx IH]; intros st tr Hst; [done|].
  change (foldl scan_step (st, tr) (i :: idx))
    with (foldl scan_step (scan_step (st, tr) i) idx).
  pose proof (scan_step_ind P Hm Hs st tr i Hst) as Hstep.
  destruct (scan_step (st, tr) i) as [st1 tr1]. by apply IH.
Qed.

Section resolved.
Variable g : Minesweeper.t.
Hypothesis g_on_board : on_board g.

Lemma agrees_mark_all_mines st s :
  agrees g st → s ∈ knowledge st → Sentence.len s = Sentence.count s →
  Sentence.cells s ⊆ Minesweeper.mines g
  ∧ agrees g (mark_mines (elements (Sentence.cells s)) st).
Proof.
  intros Ha Hin Hlen.
  assert (Sentence.cells s ⊆ Minesweeper.mines g) as Hsub
    by (apply (counts_all_mines g g_on_board); [by apply Ha | done]).
  split; [done|]. apply mark_mines_ind; [|done].
  intros c st' Hc%elem_of_elements. apply agrees_mark_mine; [done|]. set_solver.
Qed.

Lemma agrees_mark_all_safes st s :
  agrees g st → s ∈ knowledge st → Sentence.count s = 0%Z →
  Sentence.cells s ## Minesweeper.mines g
  ∧ agrees g (mark_safes (elements (Sentence.cells s)) st).
Proof.
  intros Ha Hin Hz.
  assert (Sentence.cells s ## Minesweeper.mines g) as Hdisj
    by (apply (counts_no_mines g g_on_board); [by apply Ha | done]).
  split; [done|]. apply mark_safes_ind; [|done].
  intros c st' Hc%elem_of_elements. apply agrees_mark_safe; [done|]. set_solver.
Qed.

Lemma pending_safes_scan C0 i0 idx : ∀ st tr,
  C0 ## Minesweeper.mines g →
  pending g safes C0 i0 st → pending g safes C0 i0 (foldl scan_step (st, tr) idx).1.
Proof.
  intros st tr HC0. apply scan_fold_ind; clear st tr.
  - intros st s (Ha & s' & Hs' & Hsub & Hcov) Hin Hlen _.
    destruct (agrees_mark_all_mines st s Ha Hin Hlen) as [HM Ha'].
    split; [done|]. rewrite mark_mines_closed. simpl.
    rewrite list_lookup_fmap, Hs'. simpl. eexists. split; [done|].
    rewrite sentence_mark_mines_closed. simpl. rewrite list_to_set_elements_L.
    split; [set_solver|]. intros x Hx. specialize (Hcov x Hx). set_solver.
  - intros st s (Ha & s' & Hs' & Hsub & Hcov) Hin Hz.
    destruct (agrees_mark_all_safes st s Ha Hin Hz) as [HM Ha'].
    split; [done|]. rewrite mark_safes_closed. simpl.
    rewrite list_lookup_fmap, Hs'. simpl. eexists. split; [done|].
    rewrite sentence_mark_safes_closed. simpl. rewrite list_to_set_elements_L.
    split; [set_solver|]. intros x Hx. specialize (Hcov x Hx).
    destruct (decide (x ∈ Sentence.cells s)); set_solver.
Qed.

Lemma pending_mines_scan C0 i0 idx : ∀ st tr,
  C0 ⊆ Minesweeper.mines g →
  pending g mines C0 i0 st → pending g mines C0 i0 (foldl scan_step (st, tr) idx).1.
Proof.
  intros st tr HC0. apply scan_fold_ind; clear st tr.
  - intros st s (Ha & s' & Hs' & Hsub & Hcov) Hin Hlen _.
    destruct (agrees_mark_all_mines st s Ha Hin Hlen) as [HM Ha'].
    split; [done|]. rewrite mark_mines_closed. simpl.
    rewrite list_lookup_fmap, Hs'. simpl. eexists. split; [done|].
    rewrite sentence_mark_mines_closed. simpl. rewrite list_to_set_elements_L.
    split; [set_solver|]. intros x Hx. specialize (Hcov x Hx).
    destruct (decide (x ∈ Sentence.cells s)); set_solver.
  - intros st s (Ha & s' & Hs' & Hsub & Hcov) Hin Hz.
    destruct (agrees_mark_all_safes st s Ha Hin Hz) as [HM Ha'].
    split; [done|]. rewrite mark_safes_closed. simpl.
    rewrite list_lookup_fmap, Hs'. simpl. eexists. split; [done|].
    rewrite sentence_mark_safes_closed. simpl. rewrite list_to_set_elements_L.
    split; [set_solver|]. intros x Hx. specialize (Hcov x Hx). set_solver.
Qed.

(** When the pass reaches the sentence, it marks what is left of it. *)
Lemma pending_safes_step C0 i0 st tr :
  C0 ## Minesweeper.mines g → pending g safes C0 i0 st →
  C0 ⊆ safes (scan_step (st, tr) i0).1.
Proof.
  intros HC0 (Ha & s & Hs & Hsub & Hcov). unfold scan_step. rewrite Hs.
  assert (Sentence.count s = 0%Z) as Hz.
  { destruct Ha as (_ & _ & _ & _ & Hk).
    rewrite (Hk s) by (by eapply list_elem_of_lookup_2).
    assert (Sentence.cells s ∩ Minesweeper.mines g = ∅) as -> by set_solver.
    by rewrite size_empty. }
  case_bool_decide as Hlen.
  { simpl. unfold Sentence.len in Hlen.
    assert (Sentence.cells s = ∅) by (apply leibniz_equiv, size_empty_iff; lia).
    set_solver. }
  rewrite (bool_decide_eq_true_2 (Sentence.count s = 0%Z)) by done.
  rewrite andb_false_r, Hs. simpl.
  rewrite (bool_decide_eq_true_2 (Sentence.count s = 0%Z)) by done. simpl.
  rewrite mark_safes_closed. simpl. rewrite list_to_set_elements_L. set_solver.
Qed.

Lemma pending_mines_step C0 i0 st tr :
  C0 ⊆ Minesweeper.mines g → pending g mines C0 i0 st →
  C0 ⊆ mines (scan_step (st, tr) i0).1.
Proof.
  intros HC0 (Ha & s & Hs & Hsub & Hcov). unfold scan_step. rewrite Hs.
  assert (Sentence.count s = Sentence.len s) as Hfull.
  { destruct Ha as (_ & _ & _ & _ & Hk).
    rewrite (Hk s) by (by eapply list_elem_of_lookup_2). unfold Sentence.len.
    assert (Sentence.cells s ∩ Minesweeper.mines g = Sentence.cells s) as ->
      by set_solver.
    done. }
  case_bool_decide as Hlen.
  { simpl. unfold Sentence.len in Hlen.
    assert (Sentence.cells s = ∅) by (apply leibniz_equiv, size_empty_iff; lia).
    set_solver. }
  rewrite (bool_decide_eq_true_2 (Sentence.len s = Sentence.count s)) by done.
  rewrite (bool_decide_eq_false_2 (Sentence.count s = 0%Z)) by congruence. simpl.
  assert (C0 ⊆ mines (mark_mines (elements (Sentence.cells s)) st)) as Hdone.
  { rewrite mark_mines_closed. simpl. rewrite list_to_set_elements_L. set_solver. }
  destruct (knowledge (mark_mines _ st) !! i0) as [s1|]; [|done].
  destruct (bool_decide (Sentence.count s1 = 0%Z)); [|done]. simpl.
  by rewrite mark_safes_closed.
Qed.

Lemma grows_scan_fold idx st tr : grows st (foldl scan_step (st, tr) idx).1.
Proof.
  apply (scan_fold_ind (grows st)); [| |apply grows_refl].
  - intros st' s Hg _ _ _. apply mark_mines_ind; [|done].
    intros. by apply grows_mark_mine.
  - intros st' s Hg _ _. apply mark_safes_ind; [|done].
    intros. by apply grows_mark_safe.
Qed.

Lemma scan_split st i0 :
  i0 < length (knowledge st) →
  ∃ st1 tr1 idx,
    scan st = foldl scan_step (scan_step (st1, tr1) i0) idx
    ∧ (st1, tr1) = foldl scan_step (st, []) (seq 0 i0).
Proof.
  intros Hi. unfold scan.
  replace (length (knowledge st)) with (i0 + S (length (knowledge st) - S i0)) by lia.
  rewrite seq_app, foldl_app. simpl.
  destruct (foldl scan_step (st, []) (seq 0 i0)) as [st1 tr1].
  by exists st1, tr1, (seq (S i0) (length (knowledge st) - S i0)).
Qed.

(** X17.  On a state that agrees with a game, one simplification pass
    resolves every sentence that was trivial when the pass began: the
    cells of a sentence with count 0 are all in [safes] afterwards, and the
    cells of a sentence whose count was its number of cells are all in
    [mines]. *)
Theorem pass_resolves_trivial st s :
  agrees g st → s ∈ knowledge st →
  let st' := state_of (mark_sels_as_mine_or_safe st) in
  (Sentence.count s = 0%Z → Sentence.cells s ⊆ safes st')
  ∧ (Sentence.len s = Sentence.count s → Sentence.cells s ⊆ mines st').
Proof.
  intros Ha Hin. cbv zeta. rewrite state_of_mark_sels.
  apply list_elem_of_lookup in Hin as [i0 Hi0].
  destruct (scan_split st i0) as (st1 & tr1 & idx & Hscan & Hpre);
    [by eapply lookup_lt_Some|].
  assert (∀ known, pending g known (Sentence.cells s) i0 st) as Hpend.
  { intros known. split; [done|]. exists s. set_solver. }
  assert (grows (scan_step (st1, tr1) i0).1 (simplify st)) as (_ & Hsafes & Hmines).
  { unfold simplify. rewrite Hscan.
    pose proof (grows_scan_fold idx (scan_step (st1, tr1) i0).1
                  (scan_step (st1, tr1) i0).2) as Hg.
    rewrite <- surjective_pairing in Hg.
    by destruct (foldl scan_step (scan_step (st1, tr1) i0) idx). }
  split.
  - intros Hz. etrans; [|apply Hsafes].
    assert (Sentence.cells s ## Minesweeper.mines g) as HC0
      by (apply (counts_no_mines g g_on_board);
          [by eapply Ha, list_elem_of_lookup_2 | done]).
    apply pending_safes_step; [done|].
    pose proof (pending_safes_scan (Sentence.cells s) i0 (seq 0 i0) st [] HC0
                  (Hpend safes)) as Hp.
    by rewrite <- Hpre in Hp.
  - intros Hlen. etrans; [|apply Hmines].
    assert (Sentence.cells s ⊆ Minesweeper.mines g) as HC0
      by (apply (counts_all_mines g g_on_board);
          [by eapply Ha, list_elem_of_lookup_2 | done]).
    apply pending_mines_step; [done|].
    pose proof (pending_mines_scan (Sentence.cells s) i0 (seq 0 i0) st [] HC0
                  (Hpend mines)) as Hp.
    by rewrite <- Hpre in Hp.
Qed.

End resolved.

Lemma pass_resolves_trivial_witness :
  Sentence.cells (Sentence.new {[ (0, 1)%Z ]} 0)
  ⊆ safes (state_of (mark_sels_as_mine_or_safe
                       (record_move (0, 0)%Z (Minesweeper.nearby_mines game_c (0, 0)%Z)
                                    (init 1 3)))).
Proof.
  refine (proj1 (pass_resolves_trivial game_c on_board_game_c _
                   (Sentence.new {[ (0, 1)%Z ]} 0) _ _) _).
  - apply agrees_record_move; [apply on_board_game_c | |].
    + simpl. set_solver.
    + apply (agrees_reachable_on game_c on_board_game_c), play_init.
  - apply (list_elem_of_lookup_2 _ 0). vm_compute. reflexivity.
  - reflexivity.
Defined.

(** ** The picture of a game *)

Lemma length_times s n : length (Game.times s n) = Z.to_nat n * length s.
Proof.
  unfold Game.times. induction (Z.to_nat n) as [|k IH]; simpl; [done|].
  rewrite length_app, IH. lia.
Qed.

Lemma length_dashes g : length (Game.dashes g) = 2 * Z.to_nat (Game.width g) + 1.
Proof. unfold Game.dashes. rewrite length_app, length_times. simpl. lia. Qed.

Lemma print_cells g i js :
  well_formed g →
  Forall (λ j, in_bounds (Game.height g) (Game.width g) (i, j) = true) js →
  mapM (Game.print_cell g i) js = Some (row_text g i js).
Proof.
  intros Hwf Hjs. apply mapM_Some. unfold row_text.
  induction Hjs as [|j js Hj _ IH]; simpl; constructor; [|done].
  unfold Game.print_cell. rewrite (well_formed_read g i j Hwf Hj). done.
Qed.

Lemma length_row_text g i js : length (mjoin (row_text g i js)) = 2 * length js.
Proof.
  unfold row_text. induction js as [|j js IH]; csimpl; [done|].
  rewrite length_app, IH. case_bool_decide; simpl; lia.
Qed.

Lemma lookup_row_text g i js : ∀ n j,
  js !! n = Some j →
  mjoin (row_text g i js) !! (2 * n + 1)
  = Some (if bool_decide ((i, j) ∈ Game.mines g) then "X" else " ")%char.
Proof.
  unfold row_text. induction js as [|j' js IH]; intros n j Hn; [done|].
  remember (2 * n + 1) as m eqn:Hm. csimpl. destruct n as [|n]; subst m.
  - injection Hn as ->. by case_bool_decide.
  - replace (2 * S n + 1) with (2 + (2 * n + 1)) by lia.
    assert (∀ (chunk : list ascii) rest, length chunk = 2 →
              (chunk ++ rest) !! (2 + (2 * n + 1)) = rest !! (2 * n + 1)) as Hskip.
    { intros chunk rest Hlen. rewrite lookup_app_r by lia. f_equal. lia. }
    rewrite Hskip by (by case_bool_decide). by apply IH.
Qed.

Lemma lookup_range n i : (0 ≤ i < n)%Z → range n !! Z.to_nat i = Some i.
Proof.
  intros Hi. unfold range. rewrite list_lookup_fmap, lookup_seq_lt by lia.
  simpl. f_equal. lia.
Qed.

Lemma print_rows g (rows : list Z) :
  well_formed g → Forall (λ i, (0 ≤ i < Game.height g)%Z) rows →
  mapM (Game.print_row g) rows
  = Some ((λ i, [Game.dashes g;
                 mjoin (row_text g i (range (Game.width g))) ++ ["|"]%char]) <$> rows).
Proof.
  intros Hwf Hrows. apply mapM_Some.
  induction Hrows as [|i rows Hi _ IH]; simpl; constructor; [|done].
  unfold Game.print_row. rewrite (print_cells g i); [done | done |].
  apply Forall_forall. intros j Hj%elem_of_range. apply in_bounds_spec. lia.
Qed.

Lemma length_join_pairs {A B} (f : B → list A) (l : list B) :
  (∀ x, length (f x) = 2) → length (mjoin (f <$> l)) = 2 * length l.
Proof.
  intros Hf. induction l as [|x l IH]; csimpl; [done|].
  rewrite length_app, IH, Hf. lia.
Qed.

Lemma lookup_join_pairs {A B} (a : A) (f : B → A) (l : list B) : ∀ n x,
  l !! n = Some x → mjoin ((λ y, [a; f y]) <$> l) !! (2 * n + 1) = Some (f x).
Proof.
  induction l as [|y l IH]; intros n x Hn; [done|].
  remember (2 * n + 1) as m eqn:Hm. csimpl. destruct n as [|n]; subst m.
  - by injection Hn as ->.
  - replace (2 * S n + 1) with (S (S (2 * n + 1))) by lia. simpl. by apply IH.
Qed.

(** X18.  On a constructed game [print] raises nothing and writes
    [2 * height + 1] lines of [2 * width + 1] characters each; the
    character at column [2 * j + 1] of line [2 * i + 1] is [X] when
    [(i, j)] is a mine and a blank otherwise. *)
Theorem print_picture g :
  well_formed g →
  ∃ lines,
    Game.print g = Some lines
    ∧ length lines = 2 * Z.to_nat (Game.height g) + 1
    ∧ Forall (λ line, length line = 2 * Z.to_nat (Game.width g) + 1) lines
    ∧ ∀ i j, in_bounds (Game.height g) (Game.width g) (i, j) = true →
        lines !! (2 * Z.to_nat i + 1) ≫= (λ line, line !! (2 * Z.to_nat j + 1))
        = Some (if bool_decide ((i, j) ∈ Game.mines g) then "X" else " ")%char.
Proof.
  intros Hwf. unfold Game.print.
  rewrite (print_rows g (range (Game.height g)) Hwf)
    by (apply Forall_forall; intros i Hi; by apply elem_of_range).
  eexists. split; [reflexivity|].
  set (line := λ i, mjoin (row_text g i (range (Game.width g))) ++ ["|"]%char).
  assert (∀ i, length (line i) = 2 * Z.to_nat (Game.width g) + 1) as Hline.
  { intros i. unfold line. rewrite length_app, length_row_text, length_range. simpl. lia. }
  split_and!.
  - rewrite length_app, (length_join_pairs (λ i, [Game.dashes g; line i])) by done.
    rewrite length_range. simpl. lia.
  - apply Forall_app. split; [|apply Forall_singleton, length_dashes].
    apply Forall_forall. intros l (ls & Hl & (i & -> & _)%list_elem_of_fmap)%list_elem_of_join.
    apply elem_of_cons in Hl as [->|Hl]; [apply length_dashes|].
    apply list_elem_of_singleton in Hl as ->. apply Hline.
  - intros i j [Hi Hj]%in_bounds_spec.
    rewrite lookup_app_l.
    2:{ rewrite (length_join_pairs (λ i, [Game.dashes g; line i])), length_range by done.
        lia. }
    rewrite (lookup_join_pairs (Game.dashes g) line _ _ i) by (by apply lookup_range).
    cbn [mbind option_bind]. unfold line.
    rewrite lookup_app_l by (rewrite length_row_text, length_range; lia).
    apply lookup_row_text. by apply lookup_range.
Qed.

Lemma print_picture_witness :
  ∃ lines, Game.print game_d = Some lines ∧ length lines = 5.
Proof.
  destruct (print_picture game_d well_formed_game_d) as (lines & Hp & Hlen & _).
  by exists lines.
Defined.

(** ** The corpus of [crawl] *)

Lemma read_fold listing : ∀ acc page,
  (foldl PageRank.read_step acc listing !! page
   = match last (filter (λ e, PageRank.endswith e.1 ".html" = true ∧ e.1 = page) listing) with
     | Some e => Some (list_to_set e.2 ∖ {[ page ]})
     | None => acc !! page
     end).
Proof.
  induction listing as [|[filename links] listing IH] using rev_ind; intros acc page.
  { done. }
  rewrite foldl_app, filter_app, last_app.
  change (foldl PageRank.read_step (foldl PageRank.read_step acc listing)
                [(filename, links)])
    with (PageRank.read_step (foldl PageRank.read_step acc listing) (filename, links)).
  unfold PageRank.read_step at 1.
  destruct (decide (PageRank.endswith filename ".html" = true ∧ filename = page))
    as [[Hh ->]|Hno].
  - rewrite filter_cons_True, filter_nil by done. rewrite Hh. simpl.
    by rewrite lookup_insert_eq.
  - rewrite filter_cons_False, filter_nil by done. simpl.
    destruct (PageRank.endswith filename ".html") eqn:Hh; simpl; [|apply IH].
    rewrite lookup_insert_ne by tauto. apply IH.
Qed.

Lemma keep_step_dom pages filename :
  dom (PageRank.keep_step pages filename) = dom pages.
Proof.
  unfold PageRank.keep_step. destruct (pages !! filename) as [links|] eqn:Hl; [|done].
  rewrite dom_insert_L. apply elem_of_dom_2 in Hl. set_solver.
Qed.

Lemma keep_fold keys : ∀ acc page,
  foldl PageRank.keep_step acc keys !! page
  = if decide (page ∈ keys)
    then filter (λ link, link ∈ dom acc) <$> acc !! page
    else acc !! page.
Proof.
  induction keys as [|k keys IH]; intros acc page.
  { destruct (decide (page ∈ [])) as [?%elem_of_nil|]; done. }
  change (foldl PageRank.keep_step acc (k :: keys))
    with (foldl PageRank.keep_step (PageRank.keep_step acc k) keys).
  rewrite IH, keep_step_dom.
  assert (PageRank.keep_step acc k !! page
          = if decide (page = k)
            then filter (λ link, link ∈ dom acc) <$> acc !! page
            else acc !! page) as ->.
  { unfold PageRank.keep_step. destruct (decide (page = k)) as [->|Hne].
    - destruct (acc !! k) as [links|] eqn:Hk; [|by rewrite Hk].
      by rewrite lookup_insert_eq.
    - destruct (acc !! k) as [links|] eqn:Hk; [|done].
      by rewrite lookup_insert_ne. }
  destruct (decide (page = k)) as [->|Hne].
  - rewrite (decide_True (P := k ∈ k :: keys)) by apply list_elem_of_here.
    destruct (decide (k ∈ keys)); [|done].
    destruct (acc !! k) as [links|]; [|done]. simpl. f_equal. set_solver.
  - destruct (decide (page ∈ keys)) as [Hin|Hin].
    + rewrite decide_True; [done|]. by apply list_elem_of_further.
    + rewrite decide_False; [done|]. by intros [?|?]%elem_of_cons.
Qed.

Lemma keep_known_lookup pages page :
  PageRank.keep_known pages !! page
  = filter (λ link, link ∈ dom pages) <$> pages !! page.
Proof.
  unfold PageRank.keep_known. rewrite keep_fold.
  destruct (pages !! page) as [links|] eqn:Hl.
  - rewrite decide_True; [done|].
    apply list_elem_of_fmap. exists (page, links). split; [done|].
    by apply elem_of_map_to_list.
  - by destruct (decide _).
Qed.

(** X19.  The corpus [crawl] returns has as keys the directory entries
    whose name ends in [.html]; the links of a page are the links found in
    its file, without the page itself and without the names that are not
    keys of the corpus: no page links to itself and every link leads to a
    page of the corpus. *)
Theorem crawl_closed listing :
  (∀ page, page ∈ dom (PageRank.crawl listing)
           ↔ PageRank.endswith page ".html" = true ∧ page ∈ listing.*1)
  ∧ (∀ page links,
       PageRank.crawl listing !! page = Some links →
       (page ∉ links) ∧ links ⊆ dom (PageRank.crawl listing)
       ∧ ∃ found, (page, found) ∈ listing
                  ∧ links = filter (λ link, link ∈ dom (PageRank.crawl listing))
                                   (list_to_set found ∖ {[ page ]})).
Proof.
  assert (∀ page, page ∈ dom (PageRank.read_pages listing)
                  ↔ PageRank.endswith page ".html" = true ∧ page ∈ listing.*1) as Hdom.
  { intros page. rewrite elem_of_dom. unfold PageRank.read_pages.
    rewrite read_fold, lookup_empty.
    destruct (last _) as [[f l]|] eqn:Hlast.
    - apply last_Some in Hlast as [pre Hpre].
      assert ((f, l) ∈ filter (λ e, PageRank.endswith e.1 ".html" = true ∧ e.1 = page)
                              listing) as [[Hh Hf] Hin]%list_elem_of_filter
        by (rewrite Hpre; set_solver).
      simpl in *. subst f. split; [|by eauto]. intros _. split; [done|].
      apply list_elem_of_fmap. by exists (page, l).
    - split; [by intros [? ?]|]. intros [Hh ((f & l) & -> & Hin)%list_elem_of_fmap].
      apply last_None in Hlast.
      assert ((f, l) ∈ filter (λ e, PageRank.endswith e.1 ".html" = true ∧ e.1 = f)
                              listing) as Hf by (by apply list_elem_of_filter).
      simpl in Hlast. rewrite Hlast in Hf. by apply elem_of_nil in Hf. }
  assert (dom (PageRank.crawl listing) = dom (PageRank.read_pages listing)) as Hsame.
  { apply set_eq. intros page. rewrite !elem_of_dom. unfold PageRank.crawl.
    rewrite keep_known_lookup. by rewrite fmap_is_Some. }
  split.
  - intros page. rewrite Hsame. apply Hdom.
  - intros page links Hl. rewrite Hsame. unfold PageRank.crawl in Hl.
    rewrite keep_known_lookup in Hl.
    destruct (PageRank.read_pages listing !! page) as [links0|] eqn:Hl0; [|done].
    simpl in Hl. injection Hl as <-.
    unfold PageRank.read_pages in Hl0. rewrite read_fold, lookup_empty in Hl0.
    destruct (last _) as [[f found]|] eqn:Hlast; [|done].
    injection Hl0 as <-.
    apply last_Some in Hlast as [pre Hpre].
    assert ((f, found) ∈ filter (λ e, PageRank.endswith e.1 ".html" = true ∧ e.1 = page)
                                listing) as [[Hh Hf] Hin]%list_elem_of_filter
      by (rewrite Hpre; set_solver).
    simpl in *. subst f. split_and!.
    + set_solver.
    + intros link Hlink. apply elem_of_filter in Hlink. tauto.
    + by exists found.
Qed.

Lemma crawl_closed_witness :
  (("1.html" : string) ∉ ({[ "2.html" ]} : gset string))
  ∧ ({[ "2.html" ]} : gset string)
    ⊆ dom (PageRank.crawl [("1.html", ["1.html"; "2.html"; "x.css"]);
                           ("x.css", []);
                           ("2.html", ["1.html"; "3.html"])]).
Proof.
  destruct (crawl_closed [("1.html", ["1.html"; "2.html"; "x.css"]);
                          ("x.css", []);
                          ("2.html", ["1.html"; "3.html"])]) as [_ H].
  destruct (H "1.html" {[ "2.html" ]}) as (H1 & H2 & _); [|by split].
  vm_compute. reflexivity.
Defined.
